(** * The AHB-lite responder of cocotbext-ahb (ahb_slave.py)

    A shallow embedding of [AHBLiteSlave] and [AHBLiteSlaveRAM]: the
    per-edge body of the [_proc_txn] coroutine, the static checks
    [_check_size], [_check_inputs] and [_check_valid_txn], and the policy
    hooks [_chk_rd], [_chk_wr], [_rd] and [_wr] of both responders. *)

From Stdlib Require Import ZArith List Bool Lia.
From Stdlib.Strings Require Import Byte.
Import ListNotations.
Local Open Scope Z_scope.

(** ** Exceptions and results *)

(** What a Python [ValueError] was raised for. *)
Inductive verr :=
| Unresolvable   (* an X/Z bit where an integer is needed *)
| NotAMember     (* IntEnum(value) on a value that is no member *)
| SizeTooLarge   (* first branch of _check_size *)
| SizeNotPow2    (* second branch of _check_size *)
| OutOfRange.    (* storage access outside the array *)

Inductive exn :=
| ValueError (why : verr)
| UnboundLocalError
| OverflowError.

Inductive result (A : Type) :=
| Ok (a : A)
| Raise (e : exn).
Arguments Ok {A} a.
Arguments Raise {A} e.

Definition is_ok {A} (r : result A) : bool :=
  match r with Ok _ => true | Raise _ => false end.

(** ** Signal values

    A value read from, or driven on, a wire: either a bit string that
    resolves to an unsigned integer, or one that holds an X/Z bit. *)
Inductive sigval :=
| Resolved (n : Z)
| Unresolved.

Definition is_resolvable (v : sigval) : bool :=
  match v with Resolved _ => true | Unresolved => false end.

(** [BinaryValue.integer]: a [ValueError] on an unresolvable value. *)
Definition integer (v : sigval) : result Z :=
  match v with
  | Resolved n => Ok n
  | Unresolved => Raise (ValueError Unresolvable)
  end.

(** [value == k] compares the integer of [value], so it raises as
    [integer] does (the resolution policy the library starts with). *)
Definition eq_int (v : sigval) (k : Z) : result bool :=
  match integer v with
  | Ok n => Ok (n =? k)
  | Raise e => Raise e
  end.

(** [bool(value)] on a one-bit wire: true when the bit is '1'. *)
Definition truthy (v : sigval) : bool :=
  match v with
  | Resolved n => negb (n =? 0)
  | Unresolved => false
  end.

(** The bits a default value may be built from ([def_val]). *)
Inductive logic := L0 | L1 | LX | LZ.

(** ** Enumerations of ahb_types

    Modelled from the spec: ahb_types is not part of the sources.  The
    transfer types IDLE, BUSY, NONSEQ, SEQ, the directions READ, WRITE and
    the responses OKAY, ERROR, numbered from 0 in this order, as the
    protocol numbers them. *)

Inductive AHBTrans := IDLE | BUSY | NONSEQ | SEQ.
Inductive AHBWrite := READ | WRITE.
Inductive AHBResp := OKAY | ERROR.

Definition AHBTrans_of (n : Z) : result AHBTrans :=
  if n =? 0 then Ok IDLE
  else if n =? 1 then Ok BUSY
  else if n =? 2 then Ok NONSEQ
  else if n =? 3 then Ok SEQ
  else Raise (ValueError NotAMember).

Definition AHBWrite_of (n : Z) : result AHBWrite :=
  if n =? 0 then Ok READ
  else if n =? 1 then Ok WRITE
  else Raise (ValueError NotAMember).

Definition resp_val (r : AHBResp) : Z :=
  match r with OKAY => 0 | ERROR => 1 end.

Definition AHBTrans_eqb (a b : AHBTrans) : bool :=
  match a, b with
  | IDLE, IDLE | BUSY, BUSY | NONSEQ, NONSEQ | SEQ, SEQ => true
  | _, _ => false
  end.

Definition AHBWrite_eqb (a b : AHBWrite) : bool :=
  match a, b with
  | READ, READ | WRITE, WRITE => true
  | _, _ => false
  end.

(** Modelled from the spec: the size classes of the [AHBSize] IntEnum
    (ahb_types is not part of the sources), BYTE=0, HWORD=1, WORD=2,
    DWORD=3, a class [n] meaning [2^n] bytes.  A size class is kept as the
    integer it is, so that the hooks can be asked about any integer. *)
Module AHBSize.
Definition BYTE : Z := 0.
Definition HWORD : Z := 1.
Definition WORD : Z := 2.
Definition DWORD : Z := 3.

Definition member (n : Z) : bool :=
  (n =? BYTE) || (n =? HWORD) || (n =? WORD) || (n =? DWORD).

(** [AHBSize(n)] *)
Definition of_int (n : Z) : result Z :=
  if member n then Ok n else Raise (ValueError NotAMember).
End AHBSize.

(** ** _check_size *)

Definition _check_size (size data_bus_width : Z) : result unit :=
  if size >? data_bus_width then Raise (ValueError SizeTooLarge)
  else if (size <=? 0) || negb (Z.land size (size - 1) =? 0)
       then Raise (ValueError SizeNotPow2)
       else Ok tt.

(** ** Little-endian byte strings *)

Definition byte_of_Z (z : Z) : byte :=
  match Byte.of_N (Z.to_N (z mod 256)) with
  | Some b => b
  | None => x00
  end.

Definition Z_of_byte (b : byte) : Z := Z.of_N (Byte.to_N b).

(** the [n] low bytes of [x], least significant first *)
Fixpoint le_bytes (n : nat) (x : Z) : list byte :=
  match n with
  | O => []
  | S n' => byte_of_Z x :: le_bytes n' (x / 256)
  end.

(** [x.to_bytes(n, byteorder="little")] *)
Definition to_bytes (x : Z) (n : Z) : result (list byte) :=
  if (0 <=? x) && (x <? 256 ^ n)
  then Ok (le_bytes (Z.to_nat n) x)
  else Raise OverflowError.

(** [int.from_bytes(bs, byteorder="little")] *)
Fixpoint from_bytes (bs : list byte) : Z :=
  match bs with
  | [] => 0
  | b :: bs' => Z_of_byte b + 256 * from_bytes bs'
  end.

(** ** Storage backend *)

(** Modelled from the spec: the [Memory] class (memory.py is not part of
    the sources), a byte-addressable array of fixed size with bounded
    reads and writes; an access that leaves the array is refused. *)
Module Memory.
Record t := Build { mem : list byte }.

Definition size (m : t) : Z := Z.of_nat (length (mem m)).

Definition create (n : Z) : t := Build (repeat x00 (Z.to_nat n)).

Definition in_range (m : t) (address len : Z) : bool :=
  (0 <=? address) && (0 <=? len) && (address + len <=? size m).

Definition read (m : t) (address len : Z) : result (list byte) :=
  if in_range m address len
  then Ok (firstn (Z.to_nat len) (skipn (Z.to_nat address) (mem m)))
  else Raise (ValueError OutOfRange).

Definition write (m : t) (address : Z) (data : list byte) : t * result unit :=
  if in_range m address (Z.of_nat (length data))
  then (Build (firstn (Z.to_nat address) (mem m) ++ data
               ++ skipn (Z.to_nat address + length data) (mem m)), Ok tt)
  else (m, Raise (ValueError OutOfRange)).
End Memory.

(** ** Policy hooks

    The four methods a responder overrides.  [S] is the object state the
    hooks own (nothing for the bare responder, the memory for the RAM).
    [_wr] returns the state it leaves behind also when it raises. *)
Class Responder (S : Type) := {
  _chk_rd : S -> Z -> Z -> bool;
  _chk_wr : S -> Z -> Z -> bool;
  _rd : S -> Z -> Z -> result Z;
  _wr : S -> Z -> Z -> sigval -> S * result Z
}.

(** [AHBLiteSlave]: always valid, fixed data. *)
Module Lite.
Definition chk_rd (_ : unit) (addr size : Z) : bool := true.
Definition chk_wr (_ : unit) (addr size : Z) : bool := true.
Definition rd (_ : unit) (addr size : Z) : result Z := Ok 0.
Definition wr (s : unit) (addr size : Z) (value : sigval) : unit * result Z :=
  (s, Ok 0).
End Lite.

#[export] Instance AHBLiteSlave : Responder unit :=
  {| _chk_rd := Lite.chk_rd; _chk_wr := Lite.chk_wr;
     _rd := Lite.rd; _wr := Lite.wr |}.

(** [AHBLiteSlaveRAM] *)
Module RAM.
Definition chk_rd (m : Memory.t) (addr size : Z) : bool :=
  if addr + 2 ^ size >? Memory.size m then false else true.

Definition chk_wr (m : Memory.t) (addr size : Z) : bool :=
  if addr + 2 ^ size >? Memory.size m then false else true.

Definition rd (m : Memory.t) (addr size : Z) : result Z :=
  match Memory.read m addr (2 ^ size) with
  | Ok data => Ok (from_bytes data)
  | Raise e => Raise e
  end.

(** [value & mask] on the written value: its integer, masked *)
Definition masked (value : sigval) (mask : Z) : result Z :=
  match integer value with
  | Ok n => Ok (Z.land n mask)
  | Raise e => Raise e
  end.

(** the if/elif chain of [_wr]; no branch binds [data] for another size *)
Definition wr_data (size : Z) (value : sigval) : result Z :=
  if size =? AHBSize.BYTE then masked value 255
  else if size =? AHBSize.HWORD then masked value 65535
  else if size =? AHBSize.WORD then masked value 4294967295
  else if size =? AHBSize.DWORD then masked value 18446744073709551615
  else Raise UnboundLocalError.

Definition wr (m : Memory.t) (addr size : Z) (value : sigval)
  : Memory.t * result Z :=
  match wr_data size value with
  | Raise e => (m, Raise e)
  | Ok data =>
      match to_bytes data (2 ^ size) with
      | Raise e => (m, Raise e)
      | Ok bytes =>
          match Memory.write m addr bytes with
          | (m', Ok _) => (m', Ok 0)
          | (m', Raise e) => (m', Raise e)
          end
      end
  end.
End RAM.

#[export] Instance AHBLiteSlaveRAM : Responder Memory.t :=
  {| _chk_rd := RAM.chk_rd; _chk_wr := RAM.chk_wr;
     _rd := RAM.rd; _wr := RAM.wr |}.

(** ** The state and exception monad of the coroutine body

    A computation runs on a world and leaves a world behind, also when it
    raises: what was assigned before the exception stays assigned. *)
Definition M (W A : Type) : Type := W -> W * result A.

Definition ret {W A} (a : A) : M W A := fun w => (w, Ok a).
Definition raise {W A} (e : exn) : M W A := fun w => (w, Raise e).
Definition lift {W A} (r : result A) : M W A := fun w => (w, r).
Definition get {W} : M W W := fun w => (w, Ok w).
Definition modify {W} (f : W -> W) : M W unit := fun w => (f w, Ok tt).
Definition bind {W A B} (m : M W A) (f : A -> M W B) : M W B :=
  fun w => match m w with
           | (w', Ok a) => f a w'
           | (w', Raise e) => (w', Raise e)
           end.

Declare Scope ahb_scope.
Delimit Scope ahb_scope with ahb.
Notation "x <- m ;; k" := (bind m (fun x => k))
  (at level 61, m at next level, right associativity) : ahb_scope.
Notation "m ;; k" := (bind m (fun _ => k))
  (at level 61, right associativity) : ahb_scope.
Notation "'when' b 'then' m" := (if b then m else ret tt)
  (at level 60, b at level 9, m at level 60) : ahb_scope.

(** ** Configuration, wires and state *)

(** What [__init__] fixes: the default drive value, the backpressure
    generator ([None] or an endless sequence of grants), and what the bus
    object answers about its wires. *)
Record config := {
  def_val : logic;
  bp : option (nat -> bool);
  data_width : Z;
  hresp_len : Z;
  hrdata_len : Z;
  hsel_exist : bool;
  hready_in_exist : bool
}.

(** The wires the master drives, as read at one rising edge. *)
Record inputs := {
  haddr : sigval;
  hsize : sigval;
  htrans : sigval;
  hwrite : sigval;
  hwdata : sigval;
  hsel : sigval;
  hready_in : sigval
}.

(** The locals of [_proc_txn], the three wires it drives (a wire reads
    back, at the next edge, what was last driven on it), the hooks' own
    state, how far the backpressure generator has advanced, and the calls
    of [_wr] made so far (latest first). *)
Record world (S : Type) := World {
  wr_start : bool;
  rd_start : bool;
  error : bool;
  txn_addr : Z;
  txn_size : Z;
  txn_type : AHBWrite;
  hready : sigval;
  hresp : sigval;
  hrdata : sigval;
  store : S;
  bp_pos : nat;
  wr_calls : list (Z * Z * sigval)
}.
Arguments World {S}.
Arguments wr_start {S}.
Arguments rd_start {S}.
Arguments error {S}.
Arguments txn_addr {S}.
Arguments txn_size {S}.
Arguments txn_type {S}.
Arguments hready {S}.
Arguments hresp {S}.
Arguments hrdata {S}.
Arguments store {S}.
Arguments bp_pos {S}.
Arguments wr_calls {S}.

Section Setters.
Context {S : Type}.
Implicit Type w : world S.

Definition set_wr_start (b : bool) w :=
  World b (rd_start w) (error w) (txn_addr w) (txn_size w) (txn_type w)
        (hready w) (hresp w) (hrdata w) (store w) (bp_pos w) (wr_calls w).
Definition set_rd_start (b : bool) w :=
  World (wr_start w) b (error w) (txn_addr w) (txn_size w) (txn_type w)
        (hready w) (hresp w) (hrdata w) (store w) (bp_pos w) (wr_calls w).
Definition set_error (b : bool) w :=
  World (wr_start w) (rd_start w) b (txn_addr w) (txn_size w) (txn_type w)
        (hready w) (hresp w) (hrdata w) (store w) (bp_pos w) (wr_calls w).
Definition set_txn_addr (a : Z) w :=
  World (wr_start w) (rd_start w) (error w) a (txn_size w) (txn_type w)
        (hready w) (hresp w) (hrdata w) (store w) (bp_pos w) (wr_calls w).
Definition set_txn_size (s : Z) w :=
  World (wr_start w) (rd_start w) (error w) (txn_addr w) s (txn_type w)
        (hready w) (hresp w) (hrdata w) (store w) (bp_pos w) (wr_calls w).
Definition set_txn_type (t : AHBWrite) w :=
  World (wr_start w) (rd_start w) (error w) (txn_addr w) (txn_size w) t
        (hready w) (hresp w) (hrdata w) (store w) (bp_pos w) (wr_calls w).
Definition set_hready (v : sigval) w :=
  World (wr_start w) (rd_start w) (error w) (txn_addr w) (txn_size w)
        (txn_type w) v (hresp w) (hrdata w) (store w) (bp_pos w) (wr_calls w).
Definition set_hresp (v : sigval) w :=
  World (wr_start w) (rd_start w) (error w) (txn_addr w) (txn_size w)
        (txn_type w) (hready w) v (hrdata w) (store w) (bp_pos w) (wr_calls w).
Definition set_hrdata (v : sigval) w :=
  World (wr_start w) (rd_start w) (error w) (txn_addr w) (txn_size w)
        (txn_type w) (hready w) (hresp w) v (store w) (bp_pos w) (wr_calls w).
Definition set_store (s : S) w :=
  World (wr_start w) (rd_start w) (error w) (txn_addr w) (txn_size w)
        (txn_type w) (hready w) (hresp w) (hrdata w) s (bp_pos w) (wr_calls w).
Definition set_bp_pos (n : nat) w :=
  World (wr_start w) (rd_start w) (error w) (txn_addr w) (txn_size w)
        (txn_type w) (hready w) (hresp w) (hrdata w) (store w) n (wr_calls w).
Definition log_wr (c : Z * Z * sigval) w :=
  World (wr_start w) (rd_start w) (error w) (txn_addr w) (txn_size w)
        (txn_type w) (hready w) (hresp w) (hrdata w) (store w) (bp_pos w)
        (c :: wr_calls w).
End Setters.

(** ** _check_inputs and _check_valid_txn *)

Definition _check_inputs (i : inputs) : bool :=
  if negb (is_resolvable (htrans i)) then false
  else if negb (is_resolvable (hwrite i)) then false
  else if negb (is_resolvable (haddr i)) then false
  else if negb (is_resolvable (hsize i)) then false
  else true.

(** [a and b] where evaluating [b] may raise: [b] is looked at only when
    [a] holds. *)
Definition and_then (a : result bool) (b : result bool) : result bool :=
  match a with
  | Ok true => b
  | Ok false => Ok false
  | Raise e => Raise e
  end.

Definition htrans_st (i : inputs) : result bool :=
  match integer (htrans i) with
  | Raise e => Raise e
  | Ok n =>
      match AHBTrans_of n with
      | Raise e => Raise e
      | Ok t => Ok (negb (AHBTrans_eqb t IDLE) && negb (AHBTrans_eqb t BUSY))
      end
  end.

Definition _check_valid_txn (cfg : config) (i : inputs) : result bool :=
  match htrans_st i with
  | Raise e => Raise e
  | Ok st =>
      if hsel_exist cfg then
        if hready_in_exist cfg then
          and_then (eq_int (hsel i) 1) (and_then (eq_int (hready_in i) 1) (Ok st))
        else
          and_then (eq_int (hsel i) 1) (Ok st)
      else
        Ok st
  end.

(** The condition of the "Check for new txn" [if]. *)
Definition new_txn (cfg : config) (cur_hready : sigval) (i : inputs)
  : result bool :=
  and_then (eq_int cur_hready 1)
    (and_then (Ok (_check_inputs i)) (_check_valid_txn cfg i)).

(** ** _proc_txn: the body of the loop, one rising edge *)

Section Machine.
Context {S : Type} `{Responder S}.
Variable cfg : config.

Local Open Scope ahb_scope.
Local Abbreviation W := (world S).

(** [_get_def(width)]: [width] copies of [def_val] *)
Definition _get_def (width : Z) : sigval :=
  match def_val cfg with
  | L0 => Resolved 0
  | L1 => Resolved (2 ^ width - 1)
  | LX | LZ => Unresolved
  end.

Definition drive_hready (v : sigval) : M W unit := modify (set_hready v).
Definition drive_hresp (r : AHBResp) : M W unit :=
  modify (set_hresp (Resolved (resp_val r))).
Definition drive_hrdata (v : sigval) : M W unit := modify (set_hrdata v).

(** [next(self.bp)], or [True] without a generator *)
Definition next_ready : M W bool :=
  match bp cfg with
  | None => ret true
  | Some g => w <- get ;; modify (set_bp_pos (Datatypes.S (bp_pos w))) ;;
              ret (g (bp_pos w))
  end.

(** the defaults driven "in case there is no txn", and the grant *)
Definition drive_defaults : M W unit :=
  drive_hready (_get_def 1) ;;
  drive_hresp OKAY ;;
  ready <- next_ready ;;
  when ready then drive_hready (Resolved 1).

(** [self._wr(txn_addr, txn_size, value)], logged *)
Definition call_wr (value : sigval) : M W Z :=
  fun w =>
    let '(s', r) := _wr (store w) (txn_addr w) (txn_size w) value in
    (set_store s' (log_wr (txn_addr w, txn_size w, value) w), r).

(** the [else] branch of the error test: a data phase that is owed *)
Definition complete_pending (cur_hready : sigval) (i : inputs) : M W unit :=
  (w <- get ;;
   when (rd_start w && truthy cur_hready) then
     (modify (set_rd_start false) ;;
      drive_hrdata (_get_def (hrdata_len cfg)))) ;;
  (w <- get ;;
   when (wr_start w && truthy cur_hready) then
     (modify (set_wr_start false) ;;
      when (AHBWrite_eqb (txn_type w) WRITE) then
        (wr <- call_wr (hwdata i) ;;
         drive_hrdata (Resolved wr) ;;
         drive_hresp OKAY))).

(** [error and (cur_hresp == r)] *)
Definition error_and (cur_hresp : sigval) (r : AHBResp) : M W bool :=
  w <- get ;;
  lift (and_then (Ok (error w)) (eq_int cur_hresp (resp_val r))).

(** the if / elif / else on the error flag *)
Definition respond (cur_hready cur_hresp : sigval) (i : inputs) : M W unit :=
  first <- error_and cur_hresp OKAY ;;
  if first then
    drive_hready (Resolved 0) ;;
    drive_hresp ERROR
  else
    second <- error_and cur_hresp ERROR ;;
    if second then
      drive_hready (Resolved 1) ;;
      drive_hresp ERROR ;;
      modify (set_error false)
    else
      complete_pending cur_hready i.

(** the body of the "Check for new txn" [if] *)
Definition address_phase (i : inputs) : M W unit :=
  addr <- lift (integer (haddr i)) ;;
  modify (set_txn_addr addr) ;;
  sz <- lift (integer (hsize i)) ;;
  size <- lift (AHBSize.of_int sz) ;;
  modify (set_txn_size size) ;;
  wrt <- lift (integer (hwrite i)) ;;
  type <- lift (AHBWrite_of wrt) ;;
  modify (set_txn_type type) ;;
  lift (_check_size (2 ^ size) (data_width cfg)) ;;
  (when (AHBWrite_eqb type WRITE) then
     (w <- get ;;
      if negb (_chk_wr (store w) addr size) then
        drive_hready (Resolved 0) ;;
        drive_hrdata (Resolved 0) ;;
        modify (set_error true) ;;
        modify (set_wr_start false)
      else
        modify (set_wr_start true) ;;
        drive_hresp OKAY)) ;;
  (when (AHBWrite_eqb type READ) then
     (w <- get ;;
      if negb (_chk_rd (store w) addr size) then
        drive_hready (Resolved 0) ;;
        modify (set_error true)
      else
        modify (set_rd_start true) ;;
        data <- lift (_rd (store w) addr size) ;;
        drive_hrdata (Resolved data) ;;
        drive_hresp OKAY)).

(** everything of one edge that comes before the check for a new txn *)
Definition data_phase (i : inputs) : M W unit :=
  w <- get ;;
  drive_defaults ;;
  respond (hready w) (hresp w) i.

(** one pass through the loop body, from the rising edge on *)
Definition edge (i : inputs) : M W unit :=
  w <- get ;;
  let cur_hready := hready w in
  data_phase i ;;
  accept <- lift (new_txn cfg cur_hready i) ;;
  when accept then address_phase i.

(** the locals before the loop and the wires as [_init_bus] left them *)
Definition init (s0 : S) : W :=
  World false false false 0 AHBSize.WORD READ
        (_get_def 1) (_get_def (hresp_len cfg)) (_get_def (hrdata_len cfg))
        s0 0%nat [].

(** the edges of a simulation, until one raises *)
Fixpoint run (ins : list inputs) : M W unit :=
  match ins with
  | [] => ret tt
  | i :: ins' => edge i ;; run ins'
  end.

(** the worlds a simulation passes through at its rising edges *)
Inductive reachable : W -> Prop :=
| reach_init s0 : reachable (init s0)
| reach_edge w i w' :
    reachable w -> edge i w = (w', Ok tt) -> reachable w'.

(** An address phase is latched at the edge taken in world [w]: the
    edge gets as far as the check for a new txn, and the check holds. *)
Definition latches (i : inputs) (w : W) : bool :=
  match data_phase i w with
  | (_, Ok _) =>
      match new_txn cfg (hready w) i with
      | Ok true => true
      | _ => false
      end
  | (_, Raise _) => false
  end.
End Machine.

(** ** Notions the statements use *)

(** a positive power of two *)
Definition pow2 (n : Z) : Prop := exists k, 0 <= k /\ n = 2 ^ k.

(** the access [addr, addr + 2^size) stays inside the memory *)
Definition in_bounds (m : Memory.t) (addr size : Z) : Prop :=
  0 <= addr /\ addr + 2 ^ size <= Memory.size m.

(** a wire that reads as 1 *)
Definition asserted (v : sigval) : bool :=
  match v with
  | Resolved n => n =? 1
  | Unresolved => false
  end.

(** [htrans] names a transfer type other than IDLE and BUSY *)
Definition transfer_requested (i : inputs) : bool :=
  match htrans i with
  | Resolved n =>
      match AHBTrans_of n with
      | Ok t => negb (AHBTrans_eqb t IDLE) && negb (AHBTrans_eqb t BUSY)
      | Raise _ => false
      end
  | Unresolved => false
  end.

(** The acceptance condition in the words of C4: the previous ready
    asserted, the four control wires resolvable, a transfer requested,
    [hsel] asserted when that wire exists, [hready_in] asserted when that
    wire exists. *)
Definition acceptable_as_claimed (cfg : config) (cur_hready : sigval)
    (i : inputs) : bool :=
  asserted cur_hready && _check_inputs i && transfer_requested i
  && implb (hsel_exist cfg) (asserted (hsel i))
  && implb (hready_in_exist cfg) (asserted (hready_in i)).

(** The same condition with [hready_in] consulted only on a bus that has
    both optional wires, which is where [_check_valid_txn] reads it. *)
Definition acceptable (cfg : config) (cur_hready : sigval) (i : inputs) : bool :=
  asserted cur_hready && _check_inputs i && transfer_requested i
  && implb (hsel_exist cfg) (asserted (hsel i))
  && implb (hsel_exist cfg && hready_in_exist cfg) (asserted (hready_in i)).

(** What the address phase latches from wires [i], when the three values
    convert and the size passes [_check_size]. *)
Definition request (cfg : config) (i : inputs) : option (Z * Z * AHBWrite) :=
  match integer (haddr i), integer (hsize i), integer (hwrite i) with
  | Ok a, Ok n, Ok t =>
      match AHBSize.of_int n, AHBWrite_of t with
      | Ok sz, Ok ty =>
          if is_ok (_check_size (2 ^ sz) (data_width cfg))
          then Some (a, sz, ty) else None
      | _, _ => None
      end
  | _, _, _ => None
  end.

Section Rejections.
Context {S : Type} `{Responder S}.
Variable cfg : config.

(** the edge taken in [w] latches a WRITE that [_chk_wr] rejects *)
Definition write_rejected (i : inputs) (w : world S) : bool :=
  latches cfg i w &&
  match request cfg i with
  | Some (a, sz, WRITE) => negb (_chk_wr (store (fst (data_phase cfg i w))) a sz)
  | _ => false
  end.

(** the edge taken in [w] latches a READ that [_chk_rd] rejects *)
Definition read_rejected (i : inputs) (w : world S) : bool :=
  latches cfg i w &&
  match request cfg i with
  | Some (a, sz, READ) => negb (_chk_rd (store (fst (data_phase cfg i w))) a sz)
  | _ => false
  end.

(** along the edges [ins] taken from [w], the pending-write flag is
    clear after every edge: no later write has been accepted *)
Fixpoint wr_start_stays_clear (ins : list inputs) (w : world S) : bool :=
  match ins with
  | [] => true
  | i :: ins' =>
      let w' := fst (edge cfg i w) in
      negb (wr_start w') && wr_start_stays_clear ins' w'
  end.

(** the world after the edges [ins], or at the edge that raised *)
Definition after (ins : list inputs) (w : world S) : world S :=
  fst (run cfg ins w).
End Rejections.

(** ** Test benches *)

Module Bench.
(** a 4-byte bus without optional wires, every cycle granted *)
Definition cfg0 : config :=
  {| def_val := L0; bp := None; data_width := 4;
     hresp_len := 1; hrdata_len := 32;
     hsel_exist := false; hready_in_exist := false |}.

(** the same bus, granted at the first two edges only *)
Definition cfg_bp : config :=
  {| def_val := L0; bp := Some (fun n => Nat.ltb n 2); data_width := 4;
     hresp_len := 1; hrdata_len := 32;
     hsel_exist := false; hready_in_exist := false |}.

(** a bus with [hready_in] but without [hsel] *)
Definition cfg_rdy : config :=
  {| def_val := L0; bp := None; data_width := 4;
     hresp_len := 1; hrdata_len := 32;
     hsel_exist := false; hready_in_exist := true |}.

Definition idle : inputs :=
  {| haddr := Resolved 0; hsize := Resolved 2; htrans := Resolved 0;
     hwrite := Resolved 0; hwdata := Resolved 0;
     hsel := Resolved 0; hready_in := Resolved 0 |}.

(** a NONSEQ transfer; [hready_in] low *)
Definition xfer (write addr size data : Z) : inputs :=
  {| haddr := Resolved addr; hsize := Resolved size; htrans := Resolved 2;
     hwrite := Resolved write; hwdata := Resolved data;
     hsel := Resolved 1; hready_in := Resolved 0 |}.

Definition ram16 : world Memory.t := init cfg0 (Memory.create 16).
Definition ram16_bp : world Memory.t := init cfg_bp (Memory.create 16).

(** after the edge that brings ready up and a rejected read at 100 *)
Definition rejected_read : world Memory.t :=
  after cfg0 [idle; xfer 0 100 2 0] ram16.
Definition rejected_read_bp : world Memory.t :=
  after cfg_bp [idle; xfer 0 100 2 0] ram16_bp.

(** after the first edge: ready is up, nothing is pending *)
Definition ready_up : world Memory.t := after cfg0 [idle] ram16.
Definition ready_up_rdy : world Memory.t :=
  after cfg_rdy [idle] (init cfg_rdy (Memory.create 16)).

(** one edge further than [rejected_read], with grants that have run
    out: the second cycle of the error sequence is next *)
Definition second_cycle_bp : world Memory.t :=
  after cfg_bp [idle; xfer 0 100 2 0; idle] ram16_bp.
End Bench.

(** the bound in the words of C7: the sum [addr + 2^size] lies within the
    half-open interval [0, memory size) *)
Definition sum_in_half_open (m : Memory.t) (addr size : Z) : Prop :=
  0 <= addr + 2 ^ size < Memory.size m.

(** ** Further notions: acceptances, grants, well-driven wires *)

(** [_default_generator]: yields [True] for ever *)
Definition _default_generator : nat -> bool := fun _ => true.

(** the configuration [cfg] with another backpressure generator *)
Definition with_bp (cfg : config) (g : option (nat -> bool)) : config :=
  {| def_val := def_val cfg; bp := g; data_width := data_width cfg;
     hresp_len := hresp_len cfg; hrdata_len := hrdata_len cfg;
     hsel_exist := hsel_exist cfg; hready_in_exist := hready_in_exist cfg |}.

(** a wire that carries an integer between [lo] and [hi] *)
Definition resolved_in (v : sigval) (lo hi : Z) : bool :=
  match v with
  | Resolved n => (lo <=? n) && (n <=? hi)
  | Unresolved => false
  end.

(** Wires as a master drives them: a two-bit [htrans], a one-bit
    [hwrite], an address, a size class the bus can carry, and the
    optional wires resolvable where [_check_valid_txn] reads them. *)
Definition well_driven (cfg : config) (i : inputs) : bool :=
  resolved_in (htrans i) 0 3 && resolved_in (hwrite i) 0 1
  && is_resolvable (haddr i)
  && match hsize i with
     | Resolved n => AHBSize.member n && (2 ^ n <=? data_width cfg)
     | Unresolved => false
     end
  && implb (hsel_exist cfg) (is_resolvable (hsel i))
  && implb (hsel_exist cfg && hready_in_exist cfg) (is_resolvable (hready_in i)).

Section Acceptances.
Context {S : Type} `{Responder S}.
Variable cfg : config.

(** the edge taken in [w] latches a WRITE that [_chk_wr] accepts *)
Definition write_accepted (i : inputs) (w : world S) : bool :=
  latches cfg i w &&
  match request cfg i with
  | Some (a, sz, WRITE) => _chk_wr (store (fst (data_phase cfg i w))) a sz
  | _ => false
  end.

(** the edge taken in [w] latches a READ that [_chk_rd] accepts *)
Definition read_accepted (i : inputs) (w : world S) : bool :=
  latches cfg i w &&
  match request cfg i with
  | Some (a, sz, READ) => _chk_rd (store (fst (data_phase cfg i w))) a sz
  | _ => false
  end.

(** what [next(self.bp)] will answer at the edge taken in [w] *)
Definition granted (w : world S) : bool :=
  match bp cfg with
  | None => true
  | Some g => g (bp_pos w)
  end.

(** the world without the position of the generator *)
Definition forget_pos (w : world S) : world S := set_bp_pos 0%nat w.
End Acceptances.

(** more test benches: the bare responder, and a generator that denies
    every second edge *)
Module Scenes.
Definition cfg_alt : config :=
  {| def_val := L0; bp := Some Nat.even; data_width := 4;
     hresp_len := 1; hrdata_len := 32;
     hsel_exist := false; hready_in_exist := false |}.

Definition lite0 : world unit := init Bench.cfg0 tt.
Definition lite_up : world unit := after Bench.cfg0 [Bench.idle] lite0.

(** a write of 4 bytes at 4 has been latched, its data phase is next *)
Definition write_pending : world Memory.t :=
  after Bench.cfg0 [Bench.idle; Bench.xfer 1 4 2 0] Bench.ram16.

(** wires nobody drives *)
Definition floating : inputs :=
  {| haddr := Unresolved; hsize := Unresolved; htrans := Unresolved;
     hwrite := Unresolved; hwdata := Unresolved;
     hsel := Unresolved; hready_in := Unresolved |}.

(** a read has been latched at an edge that was not granted *)
Definition read_waiting : world Memory.t :=
  after cfg_alt [Bench.idle; Bench.xfer 0 4 2 0] (init cfg_alt (Memory.create 16)).
End Scenes.

(** ** Proof tools *)

Ltac unfold_monad :=
  unfold drive_defaults, next_ready, call_wr, error_and,
    drive_hready, drive_hresp, drive_hrdata,
    bind, ret, lift, get, modify, raise in *.

(** split on the scrutinee of a [match] or [if] that the goal is stuck on *)
Ltac case_split :=
  match goal with
  | |- context [match ?x with _ => _ end] =>
      lazymatch x with
      | context [match _ with _ => _ end] => fail
      | _ => destruct x eqn:?
      end
  end.

(** a direction cannot be both READ and WRITE *)
Ltac absurd_type :=
  match goal with
  | H : AHBWrite_eqb ?t WRITE = true, H' : AHBWrite_eqb ?t READ = true |- _ =>
      destruct t; discriminate
  end.

(** * Properties *)

(** ** Bytes and little-endian integers *)

Lemma Z_of_byte_of_Z z : Z_of_byte (byte_of_Z z) = z mod 256.
Proof.
  unfold Z_of_byte, byte_of_Z.
  assert (Hb : 0 <= z mod 256 < 256) by (apply Z.mod_pos_bound; lia).
  destruct (Byte.of_N (Z.to_N (z mod 256))) as [b|] eqn:E.
  - apply Byte.to_of_N in E. rewrite E. lia.
  - apply Byte.of_N_None_iff in E. lia.
Qed.

Lemma length_le_bytes n x : length (le_bytes n x) = n.
Proof. revert x; induction n as [|n IH]; intros x; simpl; [|rewrite IH]; reflexivity. Qed.

Lemma from_bytes_le_bytes n x :
  from_bytes (le_bytes n x) = x mod 256 ^ Z.of_nat n.
Proof.
  revert x; induction n as [|n IH]; intros x.
  - simpl. now rewrite Z.mod_1_r.
  - cbn [le_bytes from_bytes]. rewrite IH, Z_of_byte_of_Z.
    rewrite Nat2Z.inj_succ, Z.pow_succ_r by lia.
    rewrite Z.rem_mul_r by lia. reflexivity.
Qed.

Lemma to_bytes_from_bytes x n bs :
  to_bytes x n = Ok bs -> from_bytes bs = x /\ Z.of_nat (length bs) = Z.max 0 n.
Proof.
  unfold to_bytes. destruct (_ && _) eqn:E; [|discriminate].
  intros [= <-]. apply andb_true_iff in E as [E1 E2].
  apply Z.leb_le in E1. apply Z.ltb_lt in E2.
  rewrite from_bytes_le_bytes, length_le_bytes.
  destruct (Z.le_gt_cases 0 n) as [Hn|Hn].
  - rewrite Z2Nat.id by lia. split; [apply Z.mod_small|]; lia.
  - rewrite Z.pow_neg_r in E2 by lia. lia.
Qed.

(** ** The storage backend *)

Lemma Memory_write_read m address data :
  Memory.in_range m address (Z.of_nat (length data)) = true ->
  exists m',
    Memory.write m address data = (m', Ok tt) /\
    Memory.size m' = Memory.size m /\
    Memory.read m' address (Z.of_nat (length data)) = Ok data.
Proof.
  intros Hr. unfold Memory.write. rewrite Hr.
  eexists; split; [reflexivity|].
  unfold Memory.in_range, Memory.size in *.
  apply andb_true_iff in Hr as [Hr H3]. apply andb_true_iff in Hr as [H1 H2].
  apply Z.leb_le in H1, H3.
  assert (Ha : (Z.to_nat address + length data <= length (Memory.mem m))%nat) by lia.
  assert (Hl : length (firstn (Z.to_nat address) (Memory.mem m)) = Z.to_nat address)
    by (apply firstn_length_le; lia).
  split.
  - cbn [Memory.mem]. rewrite !length_app, Hl, length_skipn. lia.
  - unfold Memory.read, Memory.in_range, Memory.size. cbn [Memory.mem].
    rewrite !length_app, Hl, length_skipn.
    rewrite (proj2 (Z.leb_le 0 address)) by lia.
    rewrite (proj2 (Z.leb_le 0 (Z.of_nat (length data)))) by lia.
    rewrite (proj2 (Z.leb_le (address + Z.of_nat (length data)) _)) by lia.
    cbn [andb]. f_equal. rewrite Nat2Z.id.
    rewrite skipn_app, Hl, Nat.sub_diag. cbn [skipn].
    rewrite skipn_all2 by lia. cbn [app].
    rewrite firstn_app, Nat.sub_diag, firstn_all. cbn [firstn].
    now rewrite app_nil_r.
Qed.

(** ** The hooks of the memory-backed responder *)

Lemma member_cases s :
  AHBSize.member s = true <->
  s = AHBSize.BYTE \/ s = AHBSize.HWORD \/ s = AHBSize.WORD \/ s = AHBSize.DWORD.
Proof.
  unfold AHBSize.member. rewrite !orb_true_iff, !Z.eqb_eq. tauto.
Qed.

Lemma wr_data_masks s v :
  AHBSize.member s = true ->
  RAM.wr_data s (Resolved v) = Ok (v mod 2 ^ (8 * 2 ^ s)).
Proof.
  intros Hs. apply member_cases in Hs.
  destruct Hs as [-> | [-> | [-> | ->]]]; cbn; f_equal.
  - change 255 with (Z.ones 8). now rewrite Z.land_ones by lia.
  - change 65535 with (Z.ones 16). now rewrite Z.land_ones by lia.
  - change 4294967295 with (Z.ones 32). now rewrite Z.land_ones by lia.
  - change 18446744073709551615 with (Z.ones 64). now rewrite Z.land_ones by lia.
Qed.

Lemma byte_count_pow s : 0 <= s -> 256 ^ (2 ^ s) = 2 ^ (8 * 2 ^ s).
Proof.
  intros Hs. change 256 with (2 ^ 8).
  rewrite <- Z.pow_mul_r; [reflexivity | lia | apply Z.pow_nonneg; lia].
Qed.

Lemma wr_in_bounds m addr s v :
  AHBSize.member s = true -> in_bounds m addr s ->
  exists m' bytes,
    _wr m addr s (Resolved v) = (m', Ok 0) /\
    Memory.size m' = Memory.size m /\
    from_bytes bytes = v mod 2 ^ (8 * 2 ^ s) /\
    Z.of_nat (length bytes) = 2 ^ s /\
    Memory.read m' addr (2 ^ s) = Ok bytes.
Proof.
  intros Hs [Ha Hb]. cbn [_wr AHBLiteSlaveRAM]. unfold RAM.wr.
  rewrite (wr_data_masks s v Hs).
  assert (Hs0 : 0 <= s) by (apply member_cases in Hs; unfold AHBSize.BYTE,
    AHBSize.HWORD, AHBSize.WORD, AHBSize.DWORD in Hs; lia).
  assert (Hp : 0 < 2 ^ s) by (apply Z.pow_pos_nonneg; lia).
  assert (Hm : 0 <= v mod 2 ^ (8 * 2 ^ s) < 2 ^ (8 * 2 ^ s))
    by (apply Z.mod_pos_bound, Z.pow_pos_nonneg; lia).
  destruct (to_bytes (v mod 2 ^ (8 * 2 ^ s)) (2 ^ s)) as [bytes|e] eqn:E.
  2:{ unfold to_bytes in E. rewrite byte_count_pow in E by lia.
      destruct (_ && _) eqn:E'; [discriminate|].
      apply andb_false_iff in E' as [E'|E'];
        [apply Z.leb_gt in E' | apply Z.ltb_ge in E']; lia. }
  destruct (to_bytes_from_bytes _ _ _ E) as [Hf Hl].
  rewrite Z.max_r in Hl by lia.
  destruct (Memory_write_read m addr bytes) as (m' & Hw & Hsz & Hrd).
  { unfold Memory.in_range. rewrite Hl.
    apply andb_true_iff; split; [apply andb_true_iff; split|];
      apply Z.leb_le; lia. }
  exists m', bytes. rewrite Hw. rewrite Hl in Hrd. auto.
Qed.

(** C1: on the memory-backed responder, a write of [v] with one of the
    four size classes at an address where the access is in bounds,
    followed by a read of the same size at the same address, returns [v]
    masked to the byte width of the transfer, [v mod 2^(8*2^s)]. *)
Theorem wr_then_rd_roundtrip (m : Memory.t) (addr s v : Z) :
  AHBSize.member s = true ->
  in_bounds m addr s ->
  exists m',
    _wr m addr s (Resolved v) = (m', Ok 0) /\
    _rd m' addr s = Ok (v mod 2 ^ (8 * 2 ^ s)).
Proof.
  intros Hs Hb.
  destruct (wr_in_bounds m addr s v Hs Hb) as (m' & bytes & Hw & _ & Hf & _ & Hr).
  exists m'. split; [exact Hw|].
  cbn [_rd AHBLiteSlaveRAM]. unfold RAM.rd. now rewrite Hr, Hf.
Qed.

Lemma wr_then_rd_roundtrip_witness :
  exists m',
    _wr (Memory.create 16) 4 AHBSize.WORD (Resolved 3735928559) = (m', Ok 0) /\
    _rd m' 4 AHBSize.WORD = Ok (3735928559 mod 2 ^ (8 * 2 ^ AHBSize.WORD)).
Proof.
  apply wr_then_rd_roundtrip; [reflexivity | split; vm_compute; discriminate].
Defined.

(** C7 as worded fails on the last bytes of the memory: a
    WORD access at address 12 of a 16-byte memory is accepted by both
    hooks although [12 + 4] is not inside [0, 16). *)
Lemma chk_sum_in_half_open_counterexample :
  _chk_rd (Memory.create 16) 12 AHBSize.WORD = true /\
  _chk_wr (Memory.create 16) 12 AHBSize.WORD = true /\
  ~ sum_in_half_open (Memory.create 16) 12 AHBSize.WORD.
Proof.
  repeat split; try reflexivity.
  unfold sum_in_half_open. vm_compute. intros [_ H]. discriminate H.
Qed.

(** C7 (amended): the validity hooks of the memory-backed responder
    succeed exactly when [addr + 2^size] does not exceed the memory size,
    that is when the bytes [addr, addr + 2^size) lie inside the memory;
    the answer is the hooks' own, computed from the size of the memory
    alone, whatever its contents. *)
Theorem chk_iff_within_size (m : Memory.t) (addr size : Z) :
  (_chk_rd m addr size = true <-> addr + 2 ^ size <= Memory.size m) /\
  (_chk_wr m addr size = true <-> addr + 2 ^ size <= Memory.size m) /\
  (forall m2, Memory.size m2 = Memory.size m ->
     _chk_rd m2 addr size = _chk_rd m addr size /\
     _chk_wr m2 addr size = _chk_wr m addr size).
Proof.
  cbn [_chk_rd _chk_wr AHBLiteSlaveRAM]. unfold RAM.chk_rd, RAM.chk_wr.
  assert (Hiff : (if addr + 2 ^ size >? Memory.size m then false else true) = true
                 <-> addr + 2 ^ size <= Memory.size m).
  { destruct (addr + 2 ^ size >? Memory.size m) eqn:E; rewrite Z.gtb_ltb in E.
    - apply Z.ltb_lt in E. split; [discriminate | lia].
    - apply Z.ltb_ge in E. split; [lia | reflexivity]. }
  split; [exact Hiff|]. split; [exact Hiff|].
  intros m2 ->. split; reflexivity.
Qed.

Lemma chk_iff_within_size_witness :
  _chk_rd (Memory.create 16) 12 AHBSize.WORD = true.
Proof.
  apply (proj2 (proj1 (chk_iff_within_size (Memory.create 16) 12 AHBSize.WORD))).
  vm_compute. discriminate.
Defined.

(** C9: [_wr] of the memory-backed responder binds [data] for BYTE, HWORD,
    WORD and DWORD only.  For any other size class it raises
    [UnboundLocalError] and leaves the memory as it was, whatever the
    value; so a call that returns was made with one of the four classes,
    and with one of them, a resolvable value and an access in bounds the
    call does return. *)
Theorem wr_bound_for_four_sizes_only (m : Memory.t) (addr size : Z) (value : sigval) :
  (AHBSize.member size = false ->
     _wr m addr size value = (m, Raise UnboundLocalError)) /\
  (is_ok (snd (_wr m addr size value)) = true -> AHBSize.member size = true) /\
  (AHBSize.member size = true -> in_bounds m addr size ->
     forall v, value = Resolved v -> is_ok (snd (_wr m addr size value)) = true).
Proof.
  assert (Hno : AHBSize.member size = false ->
                _wr m addr size value = (m, Raise UnboundLocalError)).
  { intros Hs. cbn [_wr AHBLiteSlaveRAM]. unfold RAM.wr, RAM.wr_data.
    unfold AHBSize.member in Hs.
    repeat (apply orb_false_iff in Hs as [Hs ?]).
    now repeat match goal with E : (_ =? _) = false |- _ => rewrite E; clear E end. }
  split; [exact Hno|]. split.
  - destruct (AHBSize.member size) eqn:Hs; [reflexivity|].
    rewrite (Hno eq_refl). discriminate.
  - intros Hs Hb v ->.
    destruct (wr_in_bounds m addr size v Hs Hb) as (m' & bs & Hw & _).
    now rewrite Hw.
Qed.

Lemma wr_bound_for_four_sizes_only_witness :
  _wr (Memory.create 64) 0 4 (Resolved 1) = (Memory.create 64, Raise UnboundLocalError).
Proof.
  apply (wr_bound_for_four_sizes_only (Memory.create 64) 0 4 (Resolved 1)).
  reflexivity.
Defined.

(** ** _check_size *)

Lemma land_pred_pos p :
  Z.land (Z.pos p) (Z.pos p - 1) = 0 <-> exists k, 0 <= k /\ Z.pos p = 2 ^ k.
Proof.
  induction p as [p IH | p IH |].
  - split.
    + replace (Z.pos p~1 - 1) with (2 * Z.pos p) by lia.
      replace (Z.pos p~1) with (2 * Z.pos p + 1) by lia.
      assert (E : Z.land (2 * Z.pos p + 1) (2 * Z.pos p) = 2 * Z.pos p).
      { apply Z.bits_inj'; intros n Hn. rewrite Z.land_spec.
        destruct (Z.eq_dec n 0) as [-> | Hn0].
        - rewrite Z.testbit_even_0. apply andb_false_r.
        - replace n with (Z.succ (n - 1)) by lia.
          rewrite Z.testbit_even_succ, Z.testbit_odd_succ by lia.
          apply andb_diag. }
      rewrite E. lia.
    + intros (k & Hk & E). exfalso.
      destruct (Z.eq_dec k 0) as [-> | Hk0]; [cbn in E; lia|].
      replace k with (Z.succ (k - 1)) in E by lia.
      rewrite Z.pow_succ_r in E by lia. lia.
  - replace (Z.pos p~0) with (2 * Z.pos p) by lia.
    replace (2 * Z.pos p - 1) with (2 * (Z.pos p - 1) + 1) by lia.
    assert (E : Z.land (2 * Z.pos p) (2 * (Z.pos p - 1) + 1)
                = 2 * Z.land (Z.pos p) (Z.pos p - 1)).
    { apply Z.bits_inj'; intros n Hn. rewrite Z.land_spec.
      destruct (Z.eq_dec n 0) as [-> | Hn0].
      - rewrite !Z.testbit_even_0. reflexivity.
      - replace n with (Z.succ (n - 1)) by lia.
        rewrite !Z.testbit_even_succ, Z.testbit_odd_succ, Z.land_spec by lia.
        reflexivity. }
    rewrite E. split.
    + intros H0. assert (H1 : Z.land (Z.pos p) (Z.pos p - 1) = 0) by lia.
      apply IH in H1 as (k & Hk & Ek). exists (Z.succ k).
      rewrite Z.pow_succ_r by lia. split; lia.
    + intros (k & Hk & Ek).
      destruct (Z.eq_dec k 0) as [-> | Hk0]; [cbn in Ek; lia|].
      replace k with (Z.succ (k - 1)) in Ek by lia.
      rewrite Z.pow_succ_r in Ek by lia.
      assert (H1 : Z.land (Z.pos p) (Z.pos p - 1) = 0)
        by (apply IH; exists (k - 1); split; lia).
      lia.
  - split; [exists 0; split; [lia | reflexivity] | reflexivity].
Qed.

Lemma check_size_raises_iff size data_bus_width :
  (exists e, _check_size size data_bus_width = Raise e) <->
  (size > data_bus_width \/ ~ pow2 size).
Proof.
  unfold _check_size, pow2.
  destruct (size >? data_bus_width) eqn:E1; rewrite Z.gtb_ltb in E1.
  - apply Z.ltb_lt in E1. split; [left; lia | eexists; reflexivity].
  - apply Z.ltb_ge in E1.
    destruct size as [|p|p].
    + cbn. split; [|eexists; reflexivity].
      intros _. right. intros (k & Hk & E).
      pose proof (Z.pow_pos_nonneg 2 k). lia.
    + replace (Z.pos p <=? 0) with false by (symmetry; apply Z.leb_gt; lia).
      cbn [orb].
      destruct (Z.land (Z.pos p) (Z.pos p - 1) =? 0) eqn:E2; cbn [negb].
      * apply Z.eqb_eq, land_pred_pos in E2. split.
        -- intros [e He]. discriminate.
        -- intros [? | Hn]; [lia | contradiction].
      * apply Z.eqb_neq in E2. split; [|eexists; reflexivity].
        intros _. right. intros Hp. apply E2, land_pred_pos, Hp.
    + cbn. split; [|eexists; reflexivity].
      intros _. right. intros (k & Hk & E).
      pose proof (Z.pow_pos_nonneg 2 k). lia.
Qed.

(** ** The edge, phase by phase *)

Section MachineProperties.
Context {S : Type} `{Responder S}.
Variable cfg : config.
Local Abbreviation W := (world S).

Lemma new_txn_acceptable cur i :
  new_txn cfg cur i = Ok true <-> acceptable cfg cur i = true.
Proof.
  unfold new_txn, acceptable, _check_valid_txn, htrans_st, transfer_requested,
    asserted, and_then, eq_int, integer.
  destruct cur as [c|]; [|split; discriminate].
  destruct (c =? 1); [|split; discriminate].
  destruct (_check_inputs i); [|split; discriminate].
  destruct (htrans i) as [t|]; [|split; discriminate].
  destruct (AHBTrans_of t) as [tr|]; [|split; discriminate].
  destruct (hsel_exist cfg), (hready_in_exist cfg); cbn [implb andb];
    try (destruct (hsel i) as [s|]; [destruct (s =? 1)|]);
    try (destruct (hready_in i) as [r|]; [destruct (r =? 1)|]);
    destruct (negb (AHBTrans_eqb tr IDLE) && negb (AHBTrans_eqb tr BUSY));
    cbn; split; congruence.
Qed.

Lemma edge_phases i w :
  edge cfg i w =
  match data_phase cfg i w with
  | (w1, Ok _) =>
      match new_txn cfg (hready w) i with
      | Ok true => address_phase cfg i w1
      | Ok false => (w1, Ok tt)
      | Raise e => (w1, Raise e)
      end
  | (w1, Raise e) => (w1, Raise e)
  end.
Proof.
  unfold edge. unfold bind at 1. unfold get at 1. unfold bind at 1.
  destruct (data_phase cfg i w) as [w1 [[]|e]]; [|reflexivity].
  unfold bind, lift, ret.
  destruct (new_txn cfg (hready w) i) as [[|]|e]; reflexivity.
Qed.

Lemma latches_edge i w :
  latches cfg i w = true ->
  exists w1, data_phase cfg i w = (w1, Ok tt) /\
             new_txn cfg (hready w) i = Ok true /\
             edge cfg i w = address_phase cfg i w1.
Proof.
  unfold latches. rewrite edge_phases.
  destruct (data_phase cfg i w) as [w1 [[]|e]]; [|discriminate].
  destruct (new_txn cfg (hready w) i) as [[|]|e]; try discriminate.
  intros _. exists w1. auto.
Qed.

Lemma not_latched_edge i w :
  latches cfg i w = false ->
  fst (edge cfg i w) = fst (data_phase cfg i w).
Proof.
  unfold latches. rewrite edge_phases.
  destruct (data_phase cfg i w) as [w1 [[]|e]]; [|reflexivity].
  destruct (new_txn cfg (hready w) i) as [[|]|e]; try discriminate; reflexivity.
Qed.

(** what the data phase leaves of the world it starts in *)
Lemma data_phase_frame i w w1 r :
  data_phase cfg i w = (w1, r) ->
  txn_addr w1 = txn_addr w /\ txn_size w1 = txn_size w /\
  txn_type w1 = txn_type w /\
  (wr_start w = false ->
     wr_start w1 = false /\ store w1 = store w /\ wr_calls w1 = wr_calls w).
Proof.
  destruct w as [ws rs er ta ts ty hr hp hd st bpn wc].
  unfold data_phase, respond, complete_pending. unfold_monad. cbn.
  repeat (case_split; cbn); intros E;
    inversion E; subst; cbn; repeat split; intros; subst; cbn in *;
    congruence.
Qed.

(** an edge that starts with the error flag clear *)
Lemma data_phase_normal i w w1 r :
  data_phase cfg i w = (w1, r) ->
  error w = false ->
  error w1 = false /\ hresp w1 = Resolved (resp_val OKAY).
Proof.
  destruct w as [ws rs er ta ts ty hr hp hd st bpn wc].
  unfold data_phase, respond, complete_pending. unfold_monad. cbn.
  intros E ->. revert E. cbn.
  repeat (case_split; cbn); intros E; inversion E; subst; cbn; auto.
Qed.

(** first cycle of the error response *)
Lemma data_phase_error_first i w :
  error w = true -> hresp w = Resolved (resp_val OKAY) ->
  exists w1,
    data_phase cfg i w = (w1, Ok tt) /\
    hready w1 = Resolved 0 /\ hresp w1 = Resolved (resp_val ERROR) /\
    error w1 = true /\
    wr_start w1 = wr_start w /\ rd_start w1 = rd_start w /\
    hrdata w1 = hrdata w /\ store w1 = store w /\ wr_calls w1 = wr_calls w.
Proof.
  destruct w as [ws rs er ta ts ty hr hp hd st bpn wc]. cbn.
  intros -> ->.
  unfold data_phase, respond, complete_pending. unfold_monad. cbn.
  repeat (case_split; cbn); eexists; split; try reflexivity; cbn; auto 10.
Qed.

(** second cycle of the error response *)
Lemma data_phase_error_second i w :
  error w = true -> hresp w = Resolved (resp_val ERROR) ->
  exists w1,
    data_phase cfg i w = (w1, Ok tt) /\
    hready w1 = Resolved 1 /\ hresp w1 = Resolved (resp_val ERROR) /\
    error w1 = false /\
    wr_start w1 = wr_start w /\ rd_start w1 = rd_start w /\
    hrdata w1 = hrdata w /\ store w1 = store w /\ wr_calls w1 = wr_calls w.
Proof.
  destruct w as [ws rs er ta ts ty hr hp hd st bpn wc]. cbn.
  intros -> ->.
  unfold data_phase, respond, complete_pending. unfold_monad. cbn.
  repeat (case_split; cbn); eexists; split; try reflexivity; cbn; auto 10.
Qed.

(** what the address phase does, by the request it latches *)
Lemma address_phase_raises i w1 w' e :
  address_phase cfg i w1 = (w', Raise e) ->
  hready w' = hready w1 /\ hresp w' = hresp w1 /\ hrdata w' = hrdata w1 /\
  error w' = error w1 /\ wr_start w' = wr_start w1 /\
  store w' = store w1 /\ wr_calls w' = wr_calls w1.
Proof.
  destruct w1 as [ws rs er ta ts ty hr hp hd st bpn wc].
  unfold address_phase. unfold_monad. cbn.
  repeat (case_split; cbn); intros E; inversion E; subst; cbn;
    try absurd_type; auto 10.
Qed.

Lemma address_phase_frame i w1 w' r :
  address_phase cfg i w1 = (w', r) ->
  store w' = store w1 /\ wr_calls w' = wr_calls w1 /\
  (error w' = true ->
     error w1 = true \/ (hready w' = Resolved 0 /\ hresp w' = hresp w1)).
Proof.
  destruct w1 as [ws rs er ta ts ty hr hp hd st bpn wc].
  unfold address_phase. unfold_monad. cbn.
  repeat (case_split; cbn); intros E; inversion E; subst; cbn;
    try absurd_type; auto 10.
Qed.

Lemma address_phase_write_rejected i w1 a sz :
  request cfg i = Some (a, sz, WRITE) ->
  _chk_wr (store w1) a sz = false ->
  address_phase cfg i w1 =
  (World false (rd_start w1) true a sz WRITE (Resolved 0) (hresp w1)
         (Resolved 0) (store w1) (bp_pos w1) (wr_calls w1), Ok tt).
Proof.
  destruct w1 as [ws rs er ta ts ty hr hp hd st bpn wc].
  unfold request, address_phase. unfold_monad. cbn.
  destruct (integer (haddr i)) as [a'|]; [|discriminate].
  destruct (integer (hsize i)) as [n|]; [|discriminate].
  destruct (integer (hwrite i)) as [t|]; [|discriminate].
  destruct (AHBSize.of_int n) as [sz'|]; [|discriminate].
  destruct (AHBWrite_of t) as [ty'|]; [|discriminate].
  destruct (_check_size (2 ^ sz') (data_width cfg)) as [[]|]; [|discriminate].
  cbn. intros [= -> -> ->]. cbn. intros ->. reflexivity.
Qed.

Lemma address_phase_read_rejected i w1 a sz :
  request cfg i = Some (a, sz, READ) ->
  _chk_rd (store w1) a sz = false ->
  address_phase cfg i w1 =
  (World (wr_start w1) (rd_start w1) true a sz READ (Resolved 0) (hresp w1)
         (hrdata w1) (store w1) (bp_pos w1) (wr_calls w1), Ok tt).
Proof.
  destruct w1 as [ws rs er ta ts ty hr hp hd st bpn wc].
  unfold request, address_phase. unfold_monad. cbn.
  destruct (integer (haddr i)) as [a'|]; [|discriminate].
  destruct (integer (hsize i)) as [n|]; [|discriminate].
  destruct (integer (hwrite i)) as [t|]; [|discriminate].
  destruct (AHBSize.of_int n) as [sz'|]; [|discriminate].
  destruct (AHBWrite_of t) as [ty'|]; [|discriminate].
  destruct (_check_size (2 ^ sz') (data_width cfg)) as [[]|]; [|discriminate].
  cbn. intros [= -> -> ->]. cbn. intros ->. reflexivity.
Qed.

(** ** The error sequence *)

Lemma new_txn_ready_low i : new_txn cfg (Resolved 0) i = Ok false.
Proof. reflexivity. Qed.

Lemma edge_ready_low i w :
  hready w = Resolved 0 -> edge cfg i w =
    match data_phase cfg i w with
    | (w1, Ok _) => (w1, Ok tt)
    | (w1, Raise e) => (w1, Raise e)
    end.
Proof. intros E. rewrite edge_phases, E, new_txn_ready_low. reflexivity. Qed.

Lemma edge_error_first i w :
  error w = true -> hready w = Resolved 0 ->
  hresp w = Resolved (resp_val OKAY) ->
  exists w',
    edge cfg i w = (w', Ok tt) /\
    hready w' = Resolved 0 /\ hresp w' = Resolved (resp_val ERROR) /\
    error w' = true /\ wr_start w' = wr_start w /\
    store w' = store w /\ wr_calls w' = wr_calls w.
Proof.
  intros He Hr Hp.
  destruct (data_phase_error_first i w He Hp)
    as (w1 & E & ? & ? & ? & ? & _ & _ & ? & ?).
  exists w1. rewrite (edge_ready_low i w Hr), E. auto 10.
Qed.

Lemma edge_error_second i w :
  error w = true -> hready w = Resolved 0 ->
  hresp w = Resolved (resp_val ERROR) ->
  exists w',
    edge cfg i w = (w', Ok tt) /\
    hready w' = Resolved 1 /\ hresp w' = Resolved (resp_val ERROR) /\
    error w' = false /\ wr_start w' = wr_start w /\
    store w' = store w /\ wr_calls w' = wr_calls w.
Proof.
  intros He Hr Hp.
  destruct (data_phase_error_second i w He Hp)
    as (w1 & E & ? & ? & ? & ? & _ & _ & ? & ?).
  exists w1. rewrite (edge_ready_low i w Hr), E. auto 10.
Qed.

(** While the error flag is set, ready reads low and the response is one
    of the two the machine drives. *)
Lemma error_keeps_ready_low w :
  reachable cfg w -> error w = true ->
  hready w = Resolved 0 /\
  (hresp w = Resolved (resp_val OKAY) \/ hresp w = Resolved (resp_val ERROR)).
Proof.
  induction 1 as [s0 | w i w' Hw IH Hedge]; [discriminate|].
  intros He'. rewrite edge_phases in Hedge.
  destruct (data_phase cfg i w) as [w1 [[]|e]] eqn:Hd; [|discriminate].
  destruct (error w) eqn:He.
  - destruct (IH eq_refl) as [Hr Hp]. rewrite Hr, new_txn_ready_low in Hedge.
    injection Hedge as <-.
    destruct Hp as [Hp | Hp].
    + destruct (data_phase_error_first i w He Hp) as (w2 & E & ? & ? & _).
      rewrite Hd in E. injection E as <-. auto.
    + destruct (data_phase_error_second i w He Hp) as (w2 & E & _ & _ & Hc & _).
      rewrite Hd in E. injection E as <-. congruence.
  - destruct (data_phase_normal i w w1 _ Hd He) as [He1 Hp1].
    destruct (new_txn cfg (hready w) i) as [[|]|e]; try discriminate.
    + destruct (address_phase_frame i w1 w' _ Hedge) as (_ & _ & Hf).
      destruct (Hf He') as [Hc | [Hr Hp]]; [congruence|].
      rewrite Hp, Hp1. auto.
    + injection Hedge as <-. congruence.
Qed.

Lemma latches_error_clear i w :
  reachable cfg w -> latches cfg i w = true -> error w = false.
Proof.
  intros Hw Hl. destruct (error w) eqn:He; [|reflexivity].
  destruct (error_keeps_ready_low w Hw He) as [Hr _].
  unfold latches in Hl. rewrite Hr, new_txn_ready_low in Hl.
  destruct (data_phase cfg i w) as [w1 [[]|e]]; discriminate.
Qed.

(** C2: in every world a simulation reaches with the error flag set,
    the response read back is OKAY or ERROR.  With OKAY the coming edge
    is the first cycle (ready 0, response ERROR, flag kept) and the one
    after it the second (ready 1, response ERROR, flag cleared); with
    ERROR the coming edge is that second cycle.  After the second cycle
    the flag is clear and ready is high, so the next edge runs as usual. *)
Theorem error_sequence_two_cycles (w : W) :
  reachable cfg w -> error w = true ->
  (hresp w = Resolved (resp_val OKAY) /\
   forall i1 i2, exists w1 w2,
     edge cfg i1 w = (w1, Ok tt) /\
     hready w1 = Resolved 0 /\ hresp w1 = Resolved (resp_val ERROR) /\
     error w1 = true /\
     edge cfg i2 w1 = (w2, Ok tt) /\
     hready w2 = Resolved 1 /\ hresp w2 = Resolved (resp_val ERROR) /\
     error w2 = false)
  \/
  (hresp w = Resolved (resp_val ERROR) /\
   forall i, exists w',
     edge cfg i w = (w', Ok tt) /\
     hready w' = Resolved 1 /\ hresp w' = Resolved (resp_val ERROR) /\
     error w' = false).
Proof.
  intros Hw He. destruct (error_keeps_ready_low w Hw He) as [Hr [Hp | Hp]].
  - left. split; [exact Hp|]. intros i1 i2.
    destruct (edge_error_first i1 w He Hr Hp) as (w1 & E1 & Hr1 & Hp1 & He1 & _).
    destruct (edge_error_second i2 w1 He1 Hr1 Hp1) as (w2 & E2 & Hr2 & Hp2 & He2 & _).
    exists w1, w2. auto 10.
  - right. split; [exact Hp|]. intros i.
    destruct (edge_error_second i w He Hr Hp) as (w' & E & ? & ? & ? & _).
    exists w'. auto.
Qed.

(** C5: in a world a simulation reaches with the error flag set, the
    coming edge latches no address phase, whatever the wires carry: the
    edge ends where its data phase ends, and the latched address, size
    and direction are those it started with. *)
Theorem no_latch_during_error (w : W) (i : inputs) :
  reachable cfg w -> error w = true ->
  latches cfg i w = false /\
  fst (edge cfg i w) = fst (data_phase cfg i w) /\
  txn_addr (fst (edge cfg i w)) = txn_addr w /\
  txn_size (fst (edge cfg i w)) = txn_size w /\
  txn_type (fst (edge cfg i w)) = txn_type w /\
  rd_start (fst (edge cfg i w)) = rd_start w /\
  wr_start (fst (edge cfg i w)) = wr_start w.
Proof.
  intros Hw He.
  assert (Hl : latches cfg i w = false).
  { destruct (latches cfg i w) eqn:Hl; [|reflexivity].
    pose proof (latches_error_clear i w Hw Hl). congruence. }
  split; [exact Hl|]. rewrite (not_latched_edge i w Hl).
  split; [reflexivity|].
  destruct (data_phase cfg i w) as [w1 r] eqn:Hd.
  destruct (data_phase_frame i w w1 r Hd) as (Ha & Hs & Ht & _).
  cbn [fst]. repeat (split; [assumption|]).
  destruct (error_keeps_ready_low w Hw He) as [_ [Hp | Hp]].
  - destruct (data_phase_error_first i w He Hp) as (w2 & E & _ & _ & _ & ? & ? & _).
    rewrite Hd in E. injection E as <-. auto.
  - destruct (data_phase_error_second i w He Hp) as (w2 & E & _ & _ & _ & ? & ? & _).
    rewrite Hd in E. injection E as <-. auto.
Qed.

(** ** The check for a new transaction *)

Lemma latches_iff i w :
  latches cfg i w = true <->
  is_ok (snd (data_phase cfg i w)) = true /\
  acceptable cfg (hready w) i = true.
Proof.
  rewrite <- new_txn_acceptable. unfold latches.
  destruct (data_phase cfg i w) as [w1 [[]|e]]; cbn.
  - destruct (new_txn cfg (hready w) i) as [[|]|e];
      split; try discriminate; try tauto; intros [_ E]; discriminate.
  - split; [discriminate | intros [E _]; discriminate].
Qed.

Lemma acceptable_resolvable cur i :
  acceptable cfg cur i = true ->
  is_resolvable (haddr i) = true /\ is_resolvable (hsize i) = true /\
  is_resolvable (hwrite i) = true.
Proof.
  unfold acceptable. rewrite !andb_true_iff. intros [[[[_ Hc] _] _] _].
  unfold _check_inputs in Hc.
  destruct (is_resolvable (htrans i)), (is_resolvable (hwrite i)),
    (is_resolvable (haddr i)), (is_resolvable (hsize i)); cbn in Hc;
    try discriminate; auto.
Qed.

(** C4 (amended): an address phase is latched at an edge exactly when the
    edge gets as far as the check and: the ready read back is asserted;
    htrans, hwrite, haddr and hsize are resolvable; htrans is neither
    IDLE nor BUSY; hsel is asserted when the hsel wire exists; hready_in
    is asserted when both the hsel and the hready_in wire exist.  When
    the condition fails the edge ends where its data phase ends, and
    the latched address, size and direction are left as they were. *)
Theorem latch_only_when_acceptable (w : W) (i : inputs) :
  (latches cfg i w = true <->
   is_ok (snd (data_phase cfg i w)) = true /\
   acceptable cfg (hready w) i = true) /\
  (acceptable cfg (hready w) i = false ->
   latches cfg i w = false /\
   fst (edge cfg i w) = fst (data_phase cfg i w) /\
   txn_addr (fst (edge cfg i w)) = txn_addr w /\
   txn_size (fst (edge cfg i w)) = txn_size w /\
   txn_type (fst (edge cfg i w)) = txn_type w).
Proof.
  split; [apply latches_iff|]. intros Ha.
  assert (Hl : latches cfg i w = false).
  { destruct (latches cfg i w) eqn:Hl; [|reflexivity].
    apply latches_iff in Hl as [_ Hl]. congruence. }
  split; [exact Hl|]. rewrite (not_latched_edge i w Hl).
  split; [reflexivity|].
  destruct (data_phase cfg i w) as [w1 r] eqn:Hd.
  destruct (data_phase_frame i w w1 r Hd) as (? & ? & ? & _). auto.
Qed.

(** ** A size the bus cannot carry *)

Lemma address_phase_size_too_large i w1 n :
  is_resolvable (haddr i) = true ->
  hsize i = Resolved n -> AHBSize.member n = true ->
  hwrite i = Resolved 0 \/ hwrite i = Resolved 1 ->
  2 ^ n > data_width cfg ->
  exists w', address_phase cfg i w1 = (w', Raise (ValueError SizeTooLarge)).
Proof.
  intros Ha Hs Hm Hw Hgt.
  unfold address_phase. unfold_monad.
  destruct (haddr i) as [a|]; [|discriminate]. rewrite Hs. cbn.
  unfold AHBSize.of_int. rewrite Hm.
  assert (Hc : _check_size (2 ^ n) (data_width cfg) = Raise (ValueError SizeTooLarge)).
  { unfold _check_size.
    destruct (2 ^ n >? data_width cfg) eqn:E; [reflexivity|].
    rewrite Z.gtb_ltb in E. apply Z.ltb_ge in E. lia. }
  destruct Hw as [-> | ->]; cbn; rewrite Hc; eexists; reflexivity.
Qed.

(** C3: [_check_size] raises exactly when the size exceeds the bus width
    or is not a positive power of two.  At an edge that latches a
    transfer whose [2^hsize] exceeds the bus width the error leaves
    [_proc_txn] at once: the wires and flags are as the data phase of
    that edge left them, no hook has been called, no later edge is
    run, and in a simulation the error flag is still clear and the
    response still OKAY. *)
Theorem check_size_fatal (w : W) (i : inputs) (n : Z) :
  (forall size data_bus_width,
     (exists e, _check_size size data_bus_width = Raise e) <->
     (size > data_bus_width \/ ~ pow2 size)) /\
  (latches cfg i w = true ->
   hsize i = Resolved n -> AHBSize.member n = true ->
   hwrite i = Resolved 0 \/ hwrite i = Resolved 1 ->
   2 ^ n > data_width cfg ->
   exists w',
     edge cfg i w = (w', Raise (ValueError SizeTooLarge)) /\
     hready w' = hready (fst (data_phase cfg i w)) /\
     hresp w' = hresp (fst (data_phase cfg i w)) /\
     hrdata w' = hrdata (fst (data_phase cfg i w)) /\
     error w' = error (fst (data_phase cfg i w)) /\
     wr_start w' = wr_start (fst (data_phase cfg i w)) /\
     store w' = store (fst (data_phase cfg i w)) /\
     wr_calls w' = wr_calls (fst (data_phase cfg i w)) /\
     (forall rest, run cfg (i :: rest) w = (w', Raise (ValueError SizeTooLarge))) /\
     (reachable cfg w ->
      error w' = false /\ hresp w' = Resolved (resp_val OKAY))).
Proof.
  split; [apply check_size_raises_iff|].
  intros Hl Hs Hm Hw Hgt.
  destruct (latches_edge i w Hl) as (w1 & Hd & Hn & He).
  apply new_txn_acceptable, acceptable_resolvable in Hn as (Ha & _).
  destruct (address_phase_size_too_large i w1 n Ha Hs Hm Hw Hgt) as [w' Hp].
  destruct (address_phase_raises i w1 w' _ Hp) as (? & ? & ? & ? & ? & ? & ?).
  exists w'. rewrite He, Hd. cbn [fst].
  repeat (split; [assumption|]). split.
  - intros rest. cbn [run]. unfold bind. now rewrite He, Hp.
  - intros Hr. pose proof (latches_error_clear i w Hr Hl) as Hc.
    destruct (data_phase_normal i w w1 _ Hd Hc). split; congruence.
Qed.

(** ** Rejections *)

Lemma write_rejected_edge i w :
  write_rejected cfg i w = true ->
  exists w1 a sz,
    data_phase cfg i w = (w1, Ok tt) /\
    edge cfg i w =
    (World false (rd_start w1) true a sz WRITE (Resolved 0) (hresp w1)
           (Resolved 0) (store w1) (bp_pos w1) (wr_calls w1), Ok tt).
Proof.
  unfold write_rejected. intros Hr. apply andb_true_iff in Hr as [Hl Hq].
  destruct (latches_edge i w Hl) as (w1 & Hd & _ & He).
  rewrite Hd in Hq. cbn [fst] in Hq.
  destruct (request cfg i) as [[[a sz] [|]]|] eqn:Hreq; try discriminate.
  apply negb_true_iff in Hq. exists w1, a, sz. split; [exact Hd|].
  rewrite He. now apply address_phase_write_rejected.
Qed.

Lemma read_rejected_edge i w :
  read_rejected cfg i w = true ->
  exists w1 a sz,
    data_phase cfg i w = (w1, Ok tt) /\
    edge cfg i w =
    (World (wr_start w1) (rd_start w1) true a sz READ (Resolved 0) (hresp w1)
           (hrdata w1) (store w1) (bp_pos w1) (wr_calls w1), Ok tt).
Proof.
  unfold read_rejected. intros Hr. apply andb_true_iff in Hr as [Hl Hq].
  destruct (latches_edge i w Hl) as (w1 & Hd & _ & He).
  rewrite Hd in Hq. cbn [fst] in Hq.
  destruct (request cfg i) as [[[a sz] [|]]|] eqn:Hreq; try discriminate.
  apply negb_true_iff in Hq. exists w1, a, sz. split; [exact Hd|].
  rewrite He. now apply address_phase_read_rejected.
Qed.

(** [_wr] is called only at an edge that starts with a write pending *)
Lemma edge_without_pending_write i w :
  wr_start w = false ->
  store (fst (edge cfg i w)) = store w /\
  wr_calls (fst (edge cfg i w)) = wr_calls w.
Proof.
  intros Hs. rewrite edge_phases.
  destruct (data_phase cfg i w) as [w1 r] eqn:Hd.
  destruct (data_phase_frame i w w1 r Hd) as (_ & _ & _ & Hf).
  destruct (Hf Hs) as (_ & Hst & Hwc).
  destruct r as [[]|e]; [|cbn; auto].
  destruct (new_txn cfg (hready w) i) as [[|]|e]; cbn [fst]; auto.
  destruct (address_phase cfg i w1) as [w' r'] eqn:Ha.
  destruct (address_phase_frame i w1 w' r' Ha) as (? & ? & _).
  cbn [fst]. split; congruence.
Qed.

Lemma quiet_run ins : forall w,
  wr_start w = false ->
  wr_start_stays_clear cfg ins w = true ->
  wr_calls (after cfg ins w) = wr_calls w /\
  store (after cfg ins w) = store w.
Proof.
  unfold after. induction ins as [|i ins IH]; intros w Hs Hq; [cbn; auto|].
  cbn [wr_start_stays_clear] in Hq. apply andb_true_iff in Hq as [Hc Hq].
  apply negb_true_iff in Hc.
  destruct (edge_without_pending_write i w Hs) as [Hst Hwc].
  cbn [run]. unfold bind.
  destruct (edge cfg i w) as [w' [[]|e]] eqn:He; cbn [fst] in *.
  - destruct (IH w' Hc Hq) as [? ?]. split; congruence.
  - auto.
Qed.

(** C6: in a simulation, at an edge that latches a WRITE which
    [_chk_wr] rejects, the machine drives ready 0 and read data 0, sets
    the error flag and leaves the pending-write flag clear.  [_wr] is
    not called for the request at that edge, nor at the two edges of the
    error sequence whatever the wires carry, nor at any later edge for
    as long as the pending-write flag is not set anew. *)
Theorem rejected_write_is_abandoned (w : W) (i : inputs) :
  reachable cfg w ->
  write_rejected cfg i w = true ->
  exists w',
    edge cfg i w = (w', Ok tt) /\
    hready w' = Resolved 0 /\ hrdata w' = Resolved 0 /\
    error w' = true /\ wr_start w' = false /\
    store w' = store (fst (data_phase cfg i w)) /\
    wr_calls w' = wr_calls (fst (data_phase cfg i w)) /\
    (forall i1 i2, wr_start_stays_clear cfg [i1; i2] w' = true) /\
    (forall ins, wr_start_stays_clear cfg ins w' = true ->
       wr_calls (after cfg ins w') = wr_calls w' /\
       store (after cfg ins w') = store w').
Proof.
  intros Hreach Hr.
  destruct (write_rejected_edge i w Hr) as (w1 & a & sz & Hd & He).
  assert (Hl : latches cfg i w = true)
    by (unfold write_rejected in Hr; now apply andb_true_iff in Hr).
  pose proof (latches_error_clear i w Hreach Hl) as Hc.
  destruct (data_phase_normal i w w1 _ Hd Hc) as [_ Hp1].
  eexists. split; [exact He|]. rewrite Hd. cbn [fst].
  do 6 (split; [reflexivity|]). split.
  - intros i1 i2.
    match goal with |- context [wr_start_stays_clear _ _ ?x] => set (w' := x) end.
    destruct (edge_error_first i1 w' eq_refl eq_refl Hp1)
      as (w2 & E1 & Hr2 & Hp2 & He2 & Hs2 & _).
    destruct (edge_error_second i2 w2 He2 Hr2 Hp2)
      as (w3 & E2 & _ & _ & _ & Hs3 & _).
    cbn [wr_start_stays_clear]. rewrite E1. cbn [fst]. rewrite E2. cbn [fst].
    rewrite Hs3, Hs2. reflexivity.
  - intros ins Hq. now apply quiet_run.
Qed.

(** C8 (amended): whatever the backpressure source grants, the machine
    drives ready low on the first edge of an error sequence and on an
    edge where a write or a read is rejected by its validity hook, and
    drives ready high on the second edge of an error sequence. *)
Theorem ready_forced_whatever_granted (w : W) (i : inputs) :
  reachable cfg w ->
  (error w = true -> hresp w = Resolved (resp_val OKAY) ->
     hready (fst (edge cfg i w)) = Resolved 0) /\
  (error w = true -> hresp w = Resolved (resp_val ERROR) ->
     hready (fst (edge cfg i w)) = Resolved 1) /\
  (write_rejected cfg i w = true -> hready (fst (edge cfg i w)) = Resolved 0) /\
  (read_rejected cfg i w = true -> hready (fst (edge cfg i w)) = Resolved 0).
Proof.
  intros Hreach. repeat split.
  - intros He Hp. destruct (error_keeps_ready_low w Hreach He) as [Hr _].
    destruct (edge_error_first i w He Hr Hp) as (w' & E & ? & _).
    now rewrite E.
  - intros He Hp. destruct (error_keeps_ready_low w Hreach He) as [Hr _].
    destruct (edge_error_second i w He Hr Hp) as (w' & E & ? & _).
    now rewrite E.
  - intros Hr. destruct (write_rejected_edge i w Hr) as (w1 & a & sz & _ & E).
    now rewrite E.
  - intros Hr. destruct (read_rejected_edge i w Hr) as (w1 & a & sz & _ & E).
    now rewrite E.
Qed.

(** C10: in a simulation, the edge at which a read or a write is
    rejected by its validity hook ends with the response OKAY and the
    error flag set; the ERROR response is driven at the edge after it,
    the first cycle of the error sequence, whatever the wires carry. *)
Theorem rejection_edge_keeps_okay (w : W) (i : inputs) :
  reachable cfg w ->
  write_rejected cfg i w = true \/ read_rejected cfg i w = true ->
  exists w',
    edge cfg i w = (w', Ok tt) /\
    hresp w' = Resolved (resp_val OKAY) /\ error w' = true /\
    forall i', exists w'',
      edge cfg i' w' = (w'', Ok tt) /\
      hresp w'' = Resolved (resp_val ERROR).
Proof.
  intros Hreach Hrej.
  assert (Hl : latches cfg i w = true).
  { destruct Hrej as [Hr | Hr];
      [unfold write_rejected in Hr | unfold read_rejected in Hr];
      now apply andb_true_iff in Hr. }
  pose proof (latches_error_clear i w Hreach Hl) as Hc.
  assert (Hex : exists w1 w', data_phase cfg i w = (w1, Ok tt) /\
                  edge cfg i w = (w', Ok tt) /\ hresp w' = hresp w1 /\
                  error w' = true /\ hready w' = Resolved 0).
  { destruct Hrej as [Hr | Hr].
    - destruct (write_rejected_edge i w Hr) as (w1 & a & sz & Hd & E).
      exists w1. eexists. split; [exact Hd|]. split; [exact E|]. cbn. auto.
    - destruct (read_rejected_edge i w Hr) as (w1 & a & sz & Hd & E).
      exists w1. eexists. split; [exact Hd|]. split; [exact E|]. cbn. auto. }
  destruct Hex as (w1 & w' & Hd & E & Hp & He & Hr).
  destruct (data_phase_normal i w w1 _ Hd Hc) as [_ Hp1].
  rewrite Hp1 in Hp. exists w'. repeat (split; [assumption|]).
  intros i'. destruct (edge_error_first i' w' He Hr Hp) as (w'' & E' & _ & ? & _).
  exists w''. auto.
Qed.

Lemma after_reachable ins : forall w,
  reachable cfg w -> snd (run cfg ins w) = Ok tt ->
  reachable cfg (after cfg ins w).
Proof.
  unfold after. induction ins as [|i ins IH]; intros w Hw; cbn [run].
  - intros _. exact Hw.
  - unfold bind. destruct (edge cfg i w) as [w' [[]|e]] eqn:He.
    + apply IH. exact (reach_edge cfg w i w' Hw He).
    + discriminate.
Qed.
End MachineProperties.

(** ** The properties on the test benches *)

Lemma error_sequence_two_cycles_witness :
  hresp (after Bench.cfg0 [Bench.idle; Bench.idle] Bench.rejected_read)
  = Resolved (resp_val ERROR) /\
  error (after Bench.cfg0 [Bench.idle; Bench.idle] Bench.rejected_read) = false.
Proof.
  destruct (error_sequence_two_cycles Bench.cfg0 Bench.rejected_read)
    as [[_ Hseq] | [Hp _]].
  - apply after_reachable; [apply reach_init | reflexivity].
  - reflexivity.
  - destruct (Hseq Bench.idle Bench.idle) as (w1 & w2 & E1 & _ & _ & _ & E2 & _ & Hp & He).
    unfold after. cbn [run]. unfold bind at 1. rewrite E1.
    unfold bind at 1. rewrite E2. cbn. auto.
  - discriminate Hp.
Defined.

Lemma check_size_fatal_witness :
  exists w',
    edge Bench.cfg0 (Bench.xfer 1 4 AHBSize.DWORD 0) Bench.ready_up
    = (w', Raise (ValueError SizeTooLarge)) /\
    hready w' = Resolved 1 /\ hresp w' = Resolved (resp_val OKAY) /\
    error w' = false.
Proof.
  destruct (proj2 (check_size_fatal Bench.cfg0 Bench.ready_up
                     (Bench.xfer 1 4 AHBSize.DWORD 0) AHBSize.DWORD))
    as (w' & E & Hr & _ & _ & _ & _ & _ & _ & _ & Hs).
  - reflexivity.
  - reflexivity.
  - reflexivity.
  - right. reflexivity.
  - vm_compute. reflexivity.
  - exists w'. split; [exact E|]. split; [exact Hr|].
    destruct Hs as [He Hp]; [|auto].
    apply after_reachable; [apply reach_init | reflexivity].
Defined.

(** C4 as worded fails on a bus that has [hready_in] but no
    [hsel]: with [hready_in] low a NONSEQ write is latched all the same,
    and the latched address changes from 0 to 4. *)
Lemma latch_with_ready_in_low_counterexample :
  latches Bench.cfg_rdy (Bench.xfer 1 4 2 0) Bench.ready_up_rdy = true /\
  acceptable_as_claimed Bench.cfg_rdy (hready Bench.ready_up_rdy)
    (Bench.xfer 1 4 2 0) = false /\
  txn_addr Bench.ready_up_rdy = 0 /\
  txn_addr (fst (edge Bench.cfg_rdy (Bench.xfer 1 4 2 0) Bench.ready_up_rdy)) = 4.
Proof. repeat split; reflexivity. Qed.

Lemma latch_only_when_acceptable_witness :
  latches Bench.cfg0 Bench.idle Bench.ready_up = false /\
  txn_addr (fst (edge Bench.cfg0 Bench.idle Bench.ready_up))
  = txn_addr Bench.ready_up.
Proof.
  destruct (proj2 (latch_only_when_acceptable Bench.cfg0 Bench.ready_up Bench.idle))
    as (Hl & _ & Ha & _).
  - reflexivity.
  - split; [exact Hl | exact Ha].
Defined.

Lemma no_latch_during_error_witness :
  latches Bench.cfg0 (Bench.xfer 1 4 2 0) Bench.rejected_read = false.
Proof.
  apply (no_latch_during_error Bench.cfg0 Bench.rejected_read (Bench.xfer 1 4 2 0)).
  - apply after_reachable; [apply reach_init | reflexivity].
  - reflexivity.
Defined.

Lemma rejected_write_is_abandoned_witness :
  exists w',
    edge Bench.cfg0 (Bench.xfer 1 100 2 0) Bench.ready_up = (w', Ok tt) /\
    hready w' = Resolved 0 /\ hrdata w' = Resolved 0 /\
    error w' = true /\ wr_start w' = false.
Proof.
  destruct (rejected_write_is_abandoned Bench.cfg0 Bench.ready_up
              (Bench.xfer 1 100 2 0))
    as (w' & E & ? & ? & ? & ? & _).
  - apply after_reachable; [apply reach_init | reflexivity].
  - reflexivity.
  - exists w'. auto.
Defined.

(** C8 as worded fails on the second edge of an error
    sequence: the error flag is set, the generator grants nothing at that
    edge, and the machine drives ready high. *)
Lemma ready_high_in_second_error_cycle_counterexample :
  error Bench.second_cycle_bp = true /\
  (exists g, bp Bench.cfg_bp = Some g /\ g (bp_pos Bench.second_cycle_bp) = false) /\
  hready (fst (edge Bench.cfg_bp Bench.idle Bench.second_cycle_bp)) = Resolved 1 /\
  hready (fst (edge Bench.cfg_bp Bench.idle Bench.second_cycle_bp)) <> Resolved 0.
Proof.
  split; [reflexivity|]. split; [eexists; split; reflexivity|].
  split; [reflexivity | vm_compute; discriminate].
Qed.

Lemma ready_forced_whatever_granted_witness :
  hready (fst (edge Bench.cfg_bp Bench.idle Bench.rejected_read_bp)) = Resolved 0.
Proof.
  refine (proj1 (ready_forced_whatever_granted Bench.cfg_bp
                   Bench.rejected_read_bp Bench.idle _) _ _).
  - apply after_reachable; [apply reach_init | reflexivity].
  - reflexivity.
  - reflexivity.
Defined.

Lemma rejection_edge_keeps_okay_witness :
  exists w',
    edge Bench.cfg0 (Bench.xfer 0 100 2 0) Bench.ready_up = (w', Ok tt) /\
    hresp w' = Resolved (resp_val OKAY) /\ error w' = true.
Proof.
  destruct (rejection_edge_keeps_okay Bench.cfg0 Bench.ready_up
              (Bench.xfer 0 100 2 0))
    as (w' & E & ? & ? & _).
  - apply after_reachable; [apply reach_init | reflexivity].
  - right. reflexivity.
  - exists w'. auto.
Defined.

(** * Further properties of the edge *)

Section EdgeProperties.
Context {S : Type} `{Responder S}.
Variable cfg : config.
Local Abbreviation W := (world S).

(** ** The data phase without an error sequence *)

(** ready read back low or unresolvable: what is pending stays pending *)
Lemma data_phase_waits i w :
  error w = false -> truthy (hready w) = false ->
  data_phase cfg i w =
  (World (wr_start w) (rd_start w) false (txn_addr w) (txn_size w) (txn_type w)
         (if granted cfg w then Resolved 1 else _get_def cfg 1)
         (Resolved (resp_val OKAY)) (hrdata w) (store w)
         (match bp cfg with None => bp_pos w | Some _ => Datatypes.S (bp_pos w) end)
         (wr_calls w), Ok tt).
Proof.
  destruct w as [ws rs er ta ts ty hr hp hd st bpn wc]. cbn.
  intros -> Ht. unfold data_phase, respond, complete_pending, granted.
  unfold_monad. cbn -[truthy].
  destruct (bp cfg) as [g|]; cbn -[truthy]; [destruct (g bpn)|];
    cbn -[truthy]; rewrite Ht, !andb_false_r; reflexivity.
Qed.

(** ready read back high, no write pending: a pending read is retired *)
Lemma data_phase_retires_read i w :
  error w = false -> truthy (hready w) = true -> wr_start w = false ->
  data_phase cfg i w =
  (World false false false (txn_addr w) (txn_size w) (txn_type w)
         (if granted cfg w then Resolved 1 else _get_def cfg 1)
         (Resolved (resp_val OKAY))
         (if rd_start w then _get_def cfg (hrdata_len cfg) else hrdata w)
         (store w)
         (match bp cfg with None => bp_pos w | Some _ => Datatypes.S (bp_pos w) end)
         (wr_calls w), Ok tt).
Proof.
  destruct w as [ws rs er ta ts ty hr hp hd st bpn wc]. cbn.
  intros -> Ht ->. unfold data_phase, respond, complete_pending, granted.
  unfold_monad. cbn -[truthy].
  destruct (bp cfg) as [g|]; cbn -[truthy]; [destruct (g bpn)|];
    cbn -[truthy]; rewrite Ht; destruct rs; reflexivity.
Qed.

(** ready read back high, a write pending: [_wr] is called with the
    latched address and size and the write data of this edge *)
Lemma data_phase_completes_write i w :
  error w = false -> truthy (hready w) = true ->
  wr_start w = true -> txn_type w = WRITE ->
  data_phase cfg i w =
  (let '(s', r) := _wr (store w) (txn_addr w) (txn_size w) (hwdata i) in
   (World false false false (txn_addr w) (txn_size w) WRITE
          (if granted cfg w then Resolved 1 else _get_def cfg 1)
          (Resolved (resp_val OKAY))
          (match r with
           | Ok v => Resolved v
           | Raise _ => if rd_start w then _get_def cfg (hrdata_len cfg) else hrdata w
           end)
          s'
          (match bp cfg with None => bp_pos w | Some _ => Datatypes.S (bp_pos w) end)
          ((txn_addr w, txn_size w, hwdata i) :: wr_calls w),
    match r with Ok _ => Ok tt | Raise e => Raise e end)).
Proof.
  destruct w as [ws rs er ta ts ty hr hp hd st bpn wc]. cbn.
  intros -> Ht -> ->. unfold data_phase, respond, complete_pending, granted.
  unfold_monad. cbn -[truthy].
  destruct (bp cfg) as [g|]; cbn -[truthy]; try destruct (g bpn);
    cbn -[truthy]; rewrite Ht; destruct rs; cbn;
    destruct (_wr st ta ts (hwdata i)) as [s' [v|e]]; reflexivity.
Qed.

(** the generator advances by one at every edge, whatever the edge does *)
Lemma data_phase_bp_pos i w :
  bp_pos (fst (data_phase cfg i w)) =
  match bp cfg with None => bp_pos w | Some _ => Datatypes.S (bp_pos w) end.
Proof.
  destruct w as [ws rs er ta ts ty hr hp hd st bpn wc].
  unfold data_phase, respond, complete_pending. unfold_monad. cbn.
  repeat (case_split; cbn); reflexivity.
Qed.

Lemma address_phase_bp_pos i w1 :
  bp_pos (fst (address_phase cfg i w1)) = bp_pos w1.
Proof.
  destruct w1 as [ws rs er ta ts ty hr hp hd st bpn wc].
  unfold address_phase. unfold_monad. cbn.
  repeat (case_split; cbn); reflexivity.
Qed.

(** ** The address phase, by what it latches *)

Lemma address_phase_write_accepted i w1 a sz :
  request cfg i = Some (a, sz, WRITE) ->
  _chk_wr (store w1) a sz = true ->
  address_phase cfg i w1 =
  (World true (rd_start w1) (error w1) a sz WRITE (hready w1)
         (Resolved (resp_val OKAY)) (hrdata w1) (store w1) (bp_pos w1)
         (wr_calls w1), Ok tt).
Proof.
  destruct w1 as [ws rs er ta ts ty hr hp hd st bpn wc].
  unfold request, address_phase. unfold_monad. cbn.
  destruct (integer (haddr i)) as [a'|]; [|discriminate].
  destruct (integer (hsize i)) as [n|]; [|discriminate].
  destruct (integer (hwrite i)) as [t|]; [|discriminate].
  destruct (AHBSize.of_int n) as [sz'|]; [|discriminate].
  destruct (AHBWrite_of t) as [ty'|]; [|discriminate].
  destruct (_check_size (2 ^ sz') (data_width cfg)) as [[]|]; [|discriminate].
  cbn. intros [= -> -> ->]. cbn. intros ->. reflexivity.
Qed.

Lemma address_phase_read_accepted i w1 a sz :
  request cfg i = Some (a, sz, READ) ->
  _chk_rd (store w1) a sz = true ->
  address_phase cfg i w1 =
  match _rd (store w1) a sz with
  | Ok d =>
      (World (wr_start w1) true (error w1) a sz READ (hready w1)
             (Resolved (resp_val OKAY)) (Resolved d) (store w1) (bp_pos w1)
             (wr_calls w1), Ok tt)
  | Raise e =>
      (World (wr_start w1) true (error w1) a sz READ (hready w1)
             (hresp w1) (hrdata w1) (store w1) (bp_pos w1)
             (wr_calls w1), Raise e)
  end.
Proof.
  destruct w1 as [ws rs er ta ts ty hr hp hd st bpn wc].
  unfold request, address_phase. unfold_monad. cbn.
  destruct (integer (haddr i)) as [a'|]; [|discriminate].
  destruct (integer (hsize i)) as [n|]; [|discriminate].
  destruct (integer (hwrite i)) as [t|]; [|discriminate].
  destruct (AHBSize.of_int n) as [sz'|]; [|discriminate].
  destruct (AHBWrite_of t) as [ty'|]; [|discriminate].
  destruct (_check_size (2 ^ sz') (data_width cfg)) as [[]|]; [|discriminate].
  cbn. intros [= -> -> ->]. cbn. intros ->. cbn.
  destruct (_rd st a sz); reflexivity.
Qed.

(** an address phase that returns has latched a request that converts *)
Lemma address_phase_returns i w1 w' :
  address_phase cfg i w1 = (w', Ok tt) ->
  request cfg i = Some (txn_addr w', txn_size w', txn_type w').
Proof.
  destruct w1 as [ws rs er ta ts ty hr hp hd st bpn wc].
  unfold request, address_phase. unfold_monad. cbn.
  repeat (case_split; cbn); intros E; inversion E; subst; cbn; reflexivity.
Qed.

(** without a request that converts, the address phase raises *)
Lemma address_phase_no_request i w1 :
  request cfg i = None -> exists e, snd (address_phase cfg i w1) = Raise e.
Proof.
  intros Hq. destruct (address_phase cfg i w1) as [w' [[]|e]] eqn:E.
  - apply address_phase_returns in E. congruence.
  - exists e. reflexivity.
Qed.

Lemma address_phase_flags i w1 w' :
  address_phase cfg i w1 = (w', Ok tt) ->
  wr_start w1 = false -> rd_start w1 = false -> error w1 = false ->
  (wr_start w' = true ->
     txn_type w' = WRITE /\ rd_start w' = false /\ error w' = false) /\
  (rd_start w' = true ->
     txn_type w' = READ /\ wr_start w' = false /\ error w' = false).
Proof.
  destruct w1 as [ws rs er ta ts ty hr hp hd st bpn wc]. cbn.
  intros E -> -> ->. revert E.
  unfold address_phase. unfold_monad. cbn.
  repeat (case_split; cbn); intros E; inversion E; subst; cbn;
    try absurd_type;
    repeat match goal with
           | t : AHBWrite |- _ => destruct t; try discriminate
           end;
    split; intros; try discriminate; auto.
Qed.

Lemma address_phase_wires i w1 w' r :
  address_phase cfg i w1 = (w', r) ->
  (hresp w' = hresp w1 \/ hresp w' = Resolved (resp_val OKAY)) /\
  (hready w' = hready w1 \/ (hready w' = Resolved 0 /\ error w' = true)).
Proof.
  destruct w1 as [ws rs er ta ts ty hr hp hd st bpn wc].
  unfold address_phase. unfold_monad. cbn.
  repeat (case_split; cbn); intros E; inversion E; subst; cbn;
    try absurd_type; auto.
Qed.

Lemma data_phase_grant i w w1 r :
  data_phase cfg i w = (w1, r) -> error w = false ->
  hready w1 = if granted cfg w then Resolved 1 else _get_def cfg 1.
Proof.
  destruct w as [ws rs er ta ts ty hr hp hd st bpn wc].
  unfold data_phase, respond, complete_pending, granted. unfold_monad. cbn.
  intros E ->. revert E. cbn.
  repeat (case_split; cbn); intros E; inversion E; subst; cbn; auto.
Qed.

Lemma edge_bp_pos i w :
  bp_pos (fst (edge cfg i w)) =
  match bp cfg with None => bp_pos w | Some _ => Datatypes.S (bp_pos w) end.
Proof.
  rewrite edge_phases. pose proof (data_phase_bp_pos i w) as Hd.
  destruct (data_phase cfg i w) as [w1 [[]|e]]; cbn [fst] in *; [|exact Hd].
  destruct (new_txn cfg (hready w) i) as [[|]|e]; cbn [fst]; try exact Hd.
  now rewrite address_phase_bp_pos.
Qed.

(** ready read back low or unresolvable is not ready read back as 1 *)
Lemma new_txn_not_ready cur i :
  truthy cur = false -> new_txn cfg cur i <> Ok true.
Proof.
  destruct cur as [n|]; cbn; [|discriminate].
  intros Hn. apply negb_false_iff, Z.eqb_eq in Hn. subst. discriminate.
Qed.

Lemma new_txn_ready cur i :
  new_txn cfg cur i = Ok true -> truthy cur = true.
Proof.
  destruct (truthy cur) eqn:E; [reflexivity|].
  intros Hn. now apply new_txn_not_ready in Hn.
Qed.

(** X1: in every world a simulation reaches, at most one of a pending
    write, a pending read and an error sequence is active; a pending
    write goes with the latched direction WRITE and a pending read with
    READ. *)
Theorem pending_exclusive (w : W) :
  reachable cfg w ->
  (wr_start w = true ->
     txn_type w = WRITE /\ rd_start w = false /\ error w = false) /\
  (rd_start w = true ->
     txn_type w = READ /\ wr_start w = false /\ error w = false).
Proof.
  induction 1 as [s0 | w i w' Hw IH Hedge]; [split; discriminate|].
  destruct IH as [IHw IHr].
  pose proof Hedge as Hedge'. rewrite edge_phases in Hedge.
  destruct (data_phase cfg i w) as [w1 [[]|e]] eqn:Hd; [|discriminate].
  destruct (error w) eqn:He.
  - (* an error cycle: nothing was pending, nothing gets pending *)
    assert (Hws : wr_start w = false)
      by (destruct (wr_start w); [destruct IHw as (_ & _ & ?)|]; congruence).
    assert (Hrs : rd_start w = false)
      by (destruct (rd_start w); [destruct IHr as (_ & _ & ?)|]; congruence).
    destruct (error_keeps_ready_low cfg w Hw He) as [Hr Hp].
    rewrite Hr, new_txn_ready_low in Hedge. injection Hedge as <-.
    assert (wr_start w1 = false /\ rd_start w1 = false) as [Hw1 Hr1].
    { destruct Hp as [Hp | Hp];
        [destruct (data_phase_error_first cfg i w He Hp)
           as (w2 & E & _ & _ & _ & ? & ? & _)
        |destruct (data_phase_error_second cfg i w He Hp)
           as (w2 & E & _ & _ & _ & ? & ? & _)];
        rewrite Hd in E; injection E as <-; split; congruence. }
    rewrite Hw1, Hr1. split; discriminate.
  - destruct (truthy (hready w)) eqn:Ht.
    + (* ready was high: what was pending is retired before the check *)
      assert (Hclr : wr_start w1 = false /\ rd_start w1 = false /\ error w1 = false).
      { destruct (wr_start w) eqn:Hws.
        - destruct (IHw eq_refl) as (Hty & _).
          pose proof (data_phase_completes_write i w He Ht Hws Hty) as E.
          rewrite Hd in E.
          destruct (_wr (store w) (txn_addr w) (txn_size w) (hwdata i)) as [s' [v|e]];
            inversion E; subst; cbn; auto.
        - pose proof (data_phase_retires_read i w He Ht Hws) as E.
          rewrite Hd in E. inversion E; subst; cbn; auto. }
      destruct Hclr as (Hw1 & Hr1 & He1).
      destruct (new_txn cfg (hready w) i) as [[|]|e]; try discriminate.
      * exact (address_phase_flags i w1 w' Hedge Hw1 Hr1 He1).
      * injection Hedge as <-. rewrite Hw1, Hr1. split; discriminate.
    + (* ready was not high: nothing moves *)
      pose proof (data_phase_waits i w He Ht) as E. rewrite Hd in E.
      pose proof (new_txn_not_ready (hready w) i Ht) as Hn.
      destruct (new_txn cfg (hready w) i) as [[|]|e]; try discriminate;
        [congruence|].
      injection Hedge as <-. inversion E; subst; cbn.
      split; intros Hx; [destruct (IHw Hx) as (? & ? & _)
                        |destruct (IHr Hx) as (? & ? & _)]; auto.
Qed.

(** X2: the error flag is raised only by a rejection: an edge that starts
    with the flag clear and ends with it set has latched a write that
    [_chk_wr] rejected or a read that [_chk_rd] rejected. *)
Theorem error_only_by_rejection (w w' : W) (i : inputs) :
  edge cfg i w = (w', Ok tt) ->
  error w = false -> error w' = true ->
  write_rejected cfg i w = true \/ read_rejected cfg i w = true.
Proof.
  intros Hedge He He'. pose proof Hedge as Hedge0.
  rewrite edge_phases in Hedge.
  destruct (data_phase cfg i w) as [w1 [[]|e]] eqn:Hd; [|discriminate].
  destruct (data_phase_normal cfg i w w1 _ Hd He) as [He1 _].
  destruct (new_txn cfg (hready w) i) as [[|]|e] eqn:Hn; try discriminate.
  2:{ injection Hedge as <-. congruence. }
  assert (Hl : latches cfg i w = true) by (unfold latches; now rewrite Hd, Hn).
  pose proof (address_phase_returns i w1 w' Hedge) as Hq.
  unfold write_rejected, read_rejected. rewrite Hl, Hq, Hd. cbn [fst andb].
  destruct (txn_type w').
  - right. destruct (_chk_rd (store w1) (txn_addr w') (txn_size w')) eqn:Hc;
      [|reflexivity].
    pose proof (address_phase_read_accepted i w1 _ _ Hq Hc) as E.
    rewrite Hedge in E.
    destruct (_rd (store w1) (txn_addr w') (txn_size w'));
      inversion E as [Hw']; rewrite Hw' in He'; cbn in He'; congruence.
  - left. destruct (_chk_wr (store w1) (txn_addr w') (txn_size w')) eqn:Hc;
      [|reflexivity].
    pose proof (address_phase_write_accepted i w1 _ _ Hq Hc) as E.
    rewrite Hedge in E.
    inversion E as [Hw']; rewrite Hw' in He'; cbn in He'; congruence.
Qed.

(** X3: in a simulation, an edge that returns leaves the response at
    OKAY or ERROR, and at ERROR exactly when it started with the error
    flag set. *)
Theorem response_error_iff_flag (w w' : W) (i : inputs) :
  reachable cfg w ->
  edge cfg i w = (w', Ok tt) ->
  (hresp w' = Resolved (resp_val OKAY) \/ hresp w' = Resolved (resp_val ERROR)) /\
  (hresp w' = Resolved (resp_val ERROR) <-> error w = true).
Proof.
  intros Hw Hedge. destruct (error w) eqn:He.
  - destruct (error_keeps_ready_low cfg w Hw He) as [Hr [Hp | Hp]];
      [destruct (edge_error_first cfg i w He Hr Hp) as (w2 & E & _ & Hp2 & _)
      |destruct (edge_error_second cfg i w He Hr Hp) as (w2 & E & _ & Hp2 & _)];
      rewrite Hedge in E; injection E as <-; rewrite Hp2; split; auto; tauto.
  - rewrite edge_phases in Hedge.
    destruct (data_phase cfg i w) as [w1 [[]|e]] eqn:Hd; [|discriminate].
    destruct (data_phase_normal cfg i w w1 _ Hd He) as [_ Hp1].
    assert (Hp : hresp w' = Resolved (resp_val OKAY)).
    { destruct (new_txn cfg (hready w) i) as [[|]|e]; try discriminate.
      - destruct (address_phase_wires i w1 w' _ Hedge) as [[Hx | Hx] _]; congruence.
      - injection Hedge as <-. exact Hp1. }
    rewrite Hp. split; [auto|]. split; [discriminate|discriminate].
Qed.

(** X4: a wait state holds everything.  At an edge that starts with the
    error flag clear and ready read back as 0, the edge returns, latches
    nothing, calls no hook, and keeps the pending flags, the latched
    request and the read data as they were; the response is OKAY. *)
Theorem wait_state_holds (w : W) (i : inputs) :
  error w = false -> hready w = Resolved 0 ->
  exists w',
    edge cfg i w = (w', Ok tt) /\
    wr_start w' = wr_start w /\ rd_start w' = rd_start w /\ error w' = false /\
    txn_addr w' = txn_addr w /\ txn_size w' = txn_size w /\
    txn_type w' = txn_type w /\
    hrdata w' = hrdata w /\ hresp w' = Resolved (resp_val OKAY) /\
    store w' = store w /\ wr_calls w' = wr_calls w.
Proof.
  intros He Hr. rewrite (edge_ready_low cfg i w Hr).
  rewrite (data_phase_waits i w He) by (rewrite Hr; reflexivity).
  eexists. split; [reflexivity|]. cbn. auto 12.
Qed.

(** X5: the data phase of a write.  At an edge that starts with a write
    pending, the error flag clear and ready read back high, [_wr] is
    called once, with the address and size latched earlier and the write
    data carried at this edge; the store is the one [_wr] leaves; what
    [_wr] returns is driven on the read data, and what it raises leaves
    the loop. *)
Theorem write_completes_in_data_phase (w : W) (i : inputs) :
  error w = false -> truthy (hready w) = true ->
  wr_start w = true -> txn_type w = WRITE ->
  store (fst (edge cfg i w))
  = fst (_wr (store w) (txn_addr w) (txn_size w) (hwdata i)) /\
  wr_calls (fst (edge cfg i w))
  = (txn_addr w, txn_size w, hwdata i) :: wr_calls w /\
  wr_start (fst (data_phase cfg i w)) = false /\
  (forall v, snd (_wr (store w) (txn_addr w) (txn_size w) (hwdata i)) = Ok v ->
     snd (data_phase cfg i w) = Ok tt /\
     hrdata (fst (data_phase cfg i w)) = Resolved v) /\
  (forall e, snd (_wr (store w) (txn_addr w) (txn_size w) (hwdata i)) = Raise e ->
     snd (edge cfg i w) = Raise e).
Proof.
  intros He Ht Hws Hty. rewrite edge_phases.
  rewrite (data_phase_completes_write i w He Ht Hws Hty).
  destruct (_wr (store w) (txn_addr w) (txn_size w) (hwdata i)) as [s' [v|e]];
    cbn [fst snd].
  - match goal with
    | |- context [address_phase cfg i ?x] =>
        destruct (address_phase cfg i x) as [w' r] eqn:Ha;
        destruct (address_phase_frame cfg i x w' r Ha) as (Hs & Hc & _)
    end.
    destruct (new_txn cfg (hready w) i) as [[|]|e]; cbn [fst snd];
      repeat split; intros; cbn; try assumption; congruence.
  - repeat split; intros; cbn; congruence.
Qed.


(** X7: a write is only noted at the edge that latches it.  When the edge
    latches a WRITE that [_chk_wr] accepts, the edge returns with the
    pending-write flag set and the request latched; [_wr] is not called,
    the store is untouched, and ready, the read data and the error flag
    are as the data phase left them. *)
Theorem write_deferred_when_latched (w : W) (i : inputs) :
  write_accepted cfg i w = true ->
  exists w' a sz,
    request cfg i = Some (a, sz, WRITE) /\
    edge cfg i w = (w', Ok tt) /\
    wr_start w' = true /\
    txn_addr w' = a /\ txn_size w' = sz /\ txn_type w' = WRITE /\
    store w' = store (fst (data_phase cfg i w)) /\
    wr_calls w' = wr_calls (fst (data_phase cfg i w)) /\
    hready w' = hready (fst (data_phase cfg i w)) /\
    hrdata w' = hrdata (fst (data_phase cfg i w)) /\
    error w' = error (fst (data_phase cfg i w)) /\
    hresp w' = Resolved (resp_val OKAY).
Proof.
  unfold write_accepted. intros Hr. apply andb_true_iff in Hr as [Hl Hq].
  destruct (latches_edge cfg i w Hl) as (w1 & Hd & _ & He).
  rewrite Hd in *. cbn [fst] in *.
  destruct (request cfg i) as [[[a sz] [|]]|] eqn:Hreq; try discriminate.
  eexists. exists a, sz. split; [reflexivity|].
  rewrite He, (address_phase_write_accepted i w1 a sz Hreq Hq).
  split; [reflexivity|]. cbn. auto 12.
Qed.

(** X8: an unresolvable control wire is no error.  When one of htrans,
    hwrite, haddr, hsize holds an X or Z and the ready read back is
    resolvable, the check for a new txn is false without looking at the
    wires any further: the edge is its data phase and nothing else. *)
Theorem unresolvable_wire_skips_check (w : W) (i : inputs) :
  _check_inputs i = false -> is_resolvable (hready w) = true ->
  edge cfg i w = data_phase cfg i w.
Proof.
  intros Hc Hr. rewrite edge_phases.
  assert (Hn : new_txn cfg (hready w) i = Ok false).
  { unfold new_txn. rewrite Hc.
    destruct (hready w) as [n|]; [|discriminate].
    unfold eq_int, integer, and_then. destruct (n =? 1); reflexivity. }
  rewrite Hn.
  destruct (data_phase cfg i w) as [w1 [[]|e]]; reflexivity.
Qed.

(** X9: the backpressure generator is advanced exactly once per edge, in
    error cycles and at latching edges alike: after [n] edges that all
    returned it stands [n] further; without a generator the position
    never moves. *)
Theorem generator_advances_once_per_edge (ins : list inputs) : forall w : W,
  snd (run cfg ins w) = Ok tt ->
  bp_pos (after cfg ins w) =
  match bp cfg with
  | None => bp_pos w
  | Some _ => (bp_pos w + length ins)%nat
  end.
Proof.
  unfold after. induction ins as [|i ins IH]; intros w Hok.
  - cbn. destruct (bp cfg); [symmetry; apply Nat.add_0_r | reflexivity].
  - cbn [run] in *. unfold bind in *.
    pose proof (edge_bp_pos i w) as Hp.
    destruct (edge cfg i w) as [w' [[]|e]]; [|discriminate].
    cbn [fst] in Hp. rewrite (IH w' Hok), Hp.
    destruct (bp cfg); [cbn [length]; lia | reflexivity].
Qed.

(** X10: outside error handling, ready is the grant.  An edge that
    starts and ends with the error flag clear drives ready to 1 when the
    generator grants the cycle (or there is none) and to the default
    value when it denies it. *)
Theorem ready_follows_grant (w w' : W) (i : inputs) :
  edge cfg i w = (w', Ok tt) ->
  error w = false -> error w' = false ->
  hready w' = if granted cfg w then Resolved 1 else _get_def cfg 1.
Proof.
  intros Hedge He He'. rewrite edge_phases in Hedge.
  destruct (data_phase cfg i w) as [w1 [[]|e]] eqn:Hd; [|discriminate].
  pose proof (data_phase_grant i w w1 _ Hd He) as Hg.
  destruct (new_txn cfg (hready w) i) as [[|]|e]; try discriminate.
  - destruct (address_phase_wires i w1 w' _ Hedge) as [_ [Hx | [_ Hx]]];
      congruence.
  - injection Hedge as <-. exact Hg.
Qed.
End EdgeProperties.

(** ** The bare responder *)

Section Bare.
Variable cfg : config.

Lemma lite_data_phase_returns i (w : world unit) :
  error w = false -> snd (data_phase cfg i w) = Ok tt.
Proof.
  destruct w as [ws rs er ta ts ty hr hp hd st bpn wc]. cbn. intros ->.
  unfold data_phase, respond, complete_pending. unfold_monad. cbn.
  repeat (case_split; cbn); reflexivity.
Qed.

Lemma lite_address_phase i (w1 : world unit) a sz ty :
  request cfg i = Some (a, sz, ty) ->
  exists w',
    address_phase cfg i w1 = (w', Ok tt) /\
    error w' = error w1 /\ hresp w' = Resolved (resp_val OKAY) /\
    hready w' = hready w1 /\
    (ty = READ -> hrdata w' = Resolved 0).
Proof.
  intros Hq. destruct ty.
  - rewrite (@address_phase_read_accepted unit AHBLiteSlave cfg i w1 a sz Hq eq_refl).
    cbn. eexists. split; [reflexivity|]. cbn. auto.
  - rewrite (@address_phase_write_accepted unit AHBLiteSlave cfg i w1 a sz Hq eq_refl).
    eexists. split; [reflexivity|]. cbn. repeat split; auto. discriminate.
Qed.

Lemma lite_edge_clear i (w w' : world unit) :
  error w = false -> edge cfg i w = (w', Ok tt) ->
  error w' = false /\ hresp w' = Resolved (resp_val OKAY).
Proof.
  intros He Hedge. rewrite edge_phases in Hedge.
  destruct (data_phase cfg i w) as [w1 [[]|e]] eqn:Hd; [|discriminate].
  destruct (data_phase_normal cfg i w w1 _ Hd He) as [He1 Hp1].
  destruct (new_txn cfg (hready w) i) as [[|]|e]; try discriminate.
  - pose proof (address_phase_returns cfg i w1 w' Hedge) as Hq.
    destruct (lite_address_phase i w1 _ _ _ Hq) as (w2 & E & ? & ? & _).
    rewrite Hedge in E. injection E as <-. split; congruence.
  - injection Hedge as <-. auto.
Qed.

Lemma lite_error_clear (w : world unit) : reachable cfg w -> error w = false.
Proof.
  induction 1 as [s0 | w i w' Hw IH Hedge]; [reflexivity|].
  now destruct (lite_edge_clear i w w' IH Hedge).
Qed.

(** X11: the bare responder never signals an error.  In every world a
    simulation of [AHBLiteSlave] reaches the error flag is clear, every
    edge that returns leaves the response at OKAY, and an edge that
    latches a read presents 0 as read data. *)
Theorem bare_responder_never_errors (w : world unit) :
  reachable cfg w ->
  error w = false /\
  forall i w', edge cfg i w = (w', Ok tt) ->
    error w' = false /\ hresp w' = Resolved (resp_val OKAY) /\
    (read_accepted cfg i w = true -> hrdata w' = Resolved 0).
Proof.
  intros Hw. pose proof (lite_error_clear w Hw) as He.
  split; [exact He|]. intros i w' Hedge.
  destruct (lite_edge_clear i w w' He Hedge) as [He' Hp'].
  repeat (split; [assumption|]).
  unfold read_accepted. intros Hr. apply andb_true_iff in Hr as [Hl Hq].
  destruct (latches_edge cfg i w Hl) as (w1 & Hd & _ & E).
  destruct (request cfg i) as [[[a sz] [|]]|] eqn:Hreq; try discriminate.
  destruct (lite_address_phase i w1 a sz READ Hreq) as (w2 & E2 & _ & _ & _ & Hrd).
  rewrite E, E2 in Hedge. injection Hedge as <-. now apply Hrd.
Qed.

Lemma check_size_member n :
  AHBSize.member n = true -> 2 ^ n <= data_width cfg ->
  _check_size (2 ^ n) (data_width cfg) = Ok tt.
Proof.
  intros Hm Hle. apply member_cases in Hm.
  unfold _check_size.
  destruct (2 ^ n >? data_width cfg) eqn:E.
  - rewrite Z.gtb_ltb in E. apply Z.ltb_lt in E. lia.
  - destruct Hm as [-> | [-> | [-> | ->]]]; reflexivity.
Qed.

Lemma well_driven_request i :
  well_driven cfg i = true -> exists a sz ty, request cfg i = Some (a, sz, ty).
Proof.
  unfold well_driven, request, resolved_in.
  rewrite !andb_true_iff. intros [[[[[_ Hw] Ha] Hs] _] _].
  destruct (haddr i) as [a|]; [|discriminate].
  destruct (hsize i) as [n|]; [|discriminate].
  destruct (hwrite i) as [t|]; [|discriminate].
  apply andb_true_iff in Hs as [Hm Hle]. apply Z.leb_le in Hle.
  apply andb_true_iff in Hw as [H0 H1]. apply Z.leb_le in H0, H1.
  cbn. unfold AHBSize.of_int. rewrite Hm.
  rewrite (check_size_member n Hm Hle). cbn.
  assert (Ht : t = 0 \/ t = 1) by lia.
  destruct Ht as [-> | ->]; cbn; eauto.
Qed.

Lemma well_driven_new_txn cur i :
  is_resolvable cur = true -> well_driven cfg i = true ->
  exists b, new_txn cfg cur i = Ok b.
Proof.
  unfold well_driven, new_txn, _check_valid_txn, htrans_st, resolved_in.
  rewrite !andb_true_iff. intros Hc [[[[[Ht _] _] _] Hsel] Hrdy].
  destruct cur as [c|]; [|discriminate]. cbn [eq_int integer and_then].
  destruct (c =? 1); [|eauto].
  destruct (_check_inputs i); [|eauto]. cbn [and_then].
  destruct (htrans i) as [t|]; [|discriminate]. cbn [integer].
  apply andb_true_iff in Ht as [H0 H3]. apply Z.leb_le in H0, H3.
  assert (Hc4 : t = 0 \/ t = 1 \/ t = 2 \/ t = 3) by lia.
  assert (Htr : exists tr, AHBTrans_of t = Ok tr)
    by (destruct Hc4 as [-> | [-> | [-> | ->]]]; cbn; eauto).
  destruct Htr as [tr ->].
  destruct (hsel_exist cfg), (hready_in_exist cfg); cbn in Hsel, Hrdy;
    try (destruct (hsel i) as [s|]; [|discriminate]);
    try (destruct (hready_in i) as [r|]; [|discriminate]);
    cbn; repeat case_split; eauto.
Qed.

(** X12: the bare responder does not crash on wires a master drives
    properly.  In a simulation of [AHBLiteSlave], an edge taken with the
    ready read back resolvable and with well-driven control wires
    returns; no exception leaves the loop. *)
Theorem bare_responder_returns (w : world unit) (i : inputs) :
  reachable cfg w ->
  is_resolvable (hready w) = true -> well_driven cfg i = true ->
  snd (edge cfg i w) = Ok tt.
Proof.
  intros Hw Hr Hwd. pose proof (lite_error_clear w Hw) as He.
  rewrite edge_phases. pose proof (lite_data_phase_returns i w He) as Hd.
  destruct (data_phase cfg i w) as [w1 [[]|e]]; [|discriminate Hd].
  destruct (well_driven_new_txn (hready w) i Hr Hwd) as [b ->].
  destruct b; [|reflexivity].
  destruct (well_driven_request i Hwd) as (a & sz & ty & Hq).
  destruct (lite_address_phase i w1 a sz ty Hq) as (w' & E & _).
  now rewrite E.
Qed.
End Bare.

(** ** More on the hooks of the memory-backed responder *)

Lemma from_bytes_bound bs :
  0 <= from_bytes bs < 256 ^ Z.of_nat (length bs).
Proof.
  induction bs as [|b bs IH]; [cbn; lia|].
  cbn [from_bytes length]. rewrite Nat2Z.inj_succ, Z.pow_succ_r by lia.
  assert (Hb : 0 <= Z_of_byte b < 256).
  { unfold Z_of_byte. pose proof (Byte.to_N_bounded b). lia. }
  nia.
Qed.

Lemma member_nonneg s : AHBSize.member s = true -> 0 <= s.
Proof.
  intros Hs. apply member_cases in Hs.
  unfold AHBSize.BYTE, AHBSize.HWORD, AHBSize.WORD, AHBSize.DWORD in Hs. lia.
Qed.

(** with a size class of the four and a resolvable value, [_wr] gets as
    far as the storage backend, with [2^size] bytes *)
Lemma wr_reaches_memory m addr s v :
  AHBSize.member s = true ->
  exists bytes,
    Z.of_nat (length bytes) = 2 ^ s /\
    _wr m addr s (Resolved v) =
    match Memory.write m addr bytes with
    | (m', Ok _) => (m', Ok 0)
    | (m', Raise e) => (m', Raise e)
    end.
Proof.
  intros Hs. cbn [_wr AHBLiteSlaveRAM]. unfold RAM.wr.
  rewrite (wr_data_masks s v Hs).
  pose proof (member_nonneg s Hs) as Hs0.
  assert (Hp : 0 < 2 ^ s) by (apply Z.pow_pos_nonneg; lia).
  assert (Hm : 0 <= v mod 2 ^ (8 * 2 ^ s) < 2 ^ (8 * 2 ^ s))
    by (apply Z.mod_pos_bound, Z.pow_pos_nonneg; lia).
  destruct (to_bytes (v mod 2 ^ (8 * 2 ^ s)) (2 ^ s)) as [bytes|e] eqn:E.
  - destruct (to_bytes_from_bytes _ _ _ E) as [_ Hl].
    rewrite Z.max_r in Hl by lia. exists bytes. split; [exact Hl | reflexivity].
  - unfold to_bytes in E. rewrite byte_count_pow in E by lia.
    destruct (_ && _) eqn:E'; [discriminate|].
    apply andb_false_iff in E' as [E'|E'];
      [apply Z.leb_gt in E' | apply Z.ltb_ge in E']; lia.
Qed.

(** X14: [_wr] stores the low [2^size] bytes of the value and nothing
    else of it: for the four size classes, writing [v] and writing
    [v mod 2^(8*2^size)] are the same call. *)
Theorem wr_ignores_high_bytes (m : Memory.t) (addr s v : Z) :
  AHBSize.member s = true ->
  _wr m addr s (Resolved v) = _wr m addr s (Resolved (v mod 2 ^ (8 * 2 ^ s))).
Proof.
  intros Hs. cbn [_wr AHBLiteSlaveRAM]. unfold RAM.wr.
  rewrite !(wr_data_masks s _ Hs).
  pose proof (member_nonneg s Hs).
  rewrite Z.mod_mod; [reflexivity|].
  apply Z.pow_nonzero; [lia|]. apply Z.mul_nonneg_nonneg; [lia|].
  apply Z.pow_nonneg. lia.
Qed.

(** X15: what [_wr] can raise.  A call that raises leaves the memory as
    it was, and it raises [UnboundLocalError] for a size class outside
    the four, a [ValueError] for a write value with X or Z bits, or the
    storage backend's refusal of an access that leaves the memory; an
    [OverflowError] from [to_bytes] never occurs, the mask keeps the
    value within the byte count. *)
Theorem wr_raises_only (m : Memory.t) (addr s : Z) (value : sigval) (e : exn) :
  snd (_wr m addr s value) = Raise e ->
  fst (_wr m addr s value) = m /\
  ((e = UnboundLocalError /\ AHBSize.member s = false) \/
   (e = ValueError Unresolvable /\ value = Unresolved /\ AHBSize.member s = true) \/
   (e = ValueError OutOfRange /\ AHBSize.member s = true /\ ~ in_bounds m addr s)).
Proof.
  destruct (AHBSize.member s) eqn:Hs.
  - destruct value as [v|].
    + destruct (wr_reaches_memory m addr s v Hs) as (bytes & Hl & ->).
      unfold Memory.write. rewrite Hl.
      destruct (Memory.in_range m addr (2 ^ s)) eqn:Hr; cbn; [discriminate|].
      intros [= <-]. split; [reflexivity|]. right. right.
      repeat split. intros [Ha Hb].
      unfold Memory.in_range in Hr.
      pose proof (member_nonneg s Hs).
      assert (0 <= 2 ^ s) by (apply Z.pow_nonneg; lia).
      rewrite (proj2 (Z.leb_le 0 addr)), (proj2 (Z.leb_le 0 (2 ^ s))),
        (proj2 (Z.leb_le (addr + 2 ^ s) _)) in Hr by assumption.
      discriminate.
    + cbn [_wr AHBLiteSlaveRAM]. unfold RAM.wr, RAM.wr_data.
      apply member_cases in Hs.
      destruct Hs as [-> | [-> | [-> | ->]]]; cbn; intros [= <-];
        (split; [reflexivity|]); right; left; auto.
  - cbn [_wr AHBLiteSlaveRAM]. unfold RAM.wr, RAM.wr_data.
    unfold AHBSize.member in Hs.
    repeat (apply orb_false_iff in Hs as [Hs ?]).
    repeat match goal with E : (_ =? _) = false |- _ => rewrite E; clear E end.
    cbn. intros [= <-]. auto.
Qed.

(** X16: the validity hook guards the read hook.  Where [_chk_rd] accepts
    an access at a non-negative address with a non-negative size class,
    [_rd] returns, and what it returns fits the byte count of the
    access. *)
Theorem chk_rd_guards_rd (m : Memory.t) (addr s : Z) :
  _chk_rd m addr s = true -> 0 <= addr -> 0 <= s ->
  exists d, _rd m addr s = Ok d /\ 0 <= d < 2 ^ (8 * 2 ^ s).
Proof.
  cbn [_chk_rd _rd AHBLiteSlaveRAM]. unfold RAM.chk_rd, RAM.rd.
  intros Hc Ha Hs.
  destruct (addr + 2 ^ s >? Memory.size m) eqn:E; [discriminate|].
  rewrite Z.gtb_ltb in E. apply Z.ltb_ge in E.
  assert (Hp : 0 < 2 ^ s) by (apply Z.pow_pos_nonneg; lia).
  unfold Memory.read, Memory.in_range.
  rewrite (proj2 (Z.leb_le 0 addr)), (proj2 (Z.leb_le 0 (2 ^ s))),
    (proj2 (Z.leb_le (addr + 2 ^ s) _)) by lia.
  cbn [andb]. eexists. split; [reflexivity|].
  match goal with |- context [from_bytes ?bs] =>
    pose proof (from_bytes_bound bs) as Hb;
    assert (Hl : Z.of_nat (length bs) = 2 ^ s)
  end.
  { unfold Memory.size in E. rewrite length_firstn, length_skipn. lia. }
  rewrite Hl, byte_count_pow in Hb by lia. exact Hb.
Qed.

(** ** The default generator *)

Section DefaultGenerator.
Context {S : Type} `{Responder S}.
Variable cfg : config.

Lemma forget_pos_wires (w w' : world S) :
  forget_pos w = forget_pos w' -> hready w = hready w'.
Proof.
  destruct w, w'. unfold forget_pos, set_bp_pos. cbn. now intros [= ].
Qed.

Lemma data_phase_default_generator i (w w' : world S) :
  forget_pos w = forget_pos w' ->
  forget_pos (fst (data_phase (with_bp cfg (Some _default_generator)) i w))
  = forget_pos (fst (data_phase (with_bp cfg None) i w')) /\
  snd (data_phase (with_bp cfg (Some _default_generator)) i w)
  = snd (data_phase (with_bp cfg None) i w').
Proof.
  destruct w as [ws rs er ta ts ty hr hp hd st bpn wc].
  destruct w' as [ws' rs' er' ta' ts' ty' hr' hp' hd' st' bpn' wc'].
  unfold forget_pos, set_bp_pos. cbn. intros E. inversion E; subst.
  unfold data_phase, respond, complete_pending, _get_def, _default_generator.
  unfold_monad. cbn.
  repeat (case_split; cbn); split; reflexivity.
Qed.

Lemma address_phase_forget_pos i (w w' : world S) :
  forget_pos w = forget_pos w' ->
  forget_pos (fst (address_phase cfg i w))
  = forget_pos (fst (address_phase cfg i w')) /\
  snd (address_phase cfg i w) = snd (address_phase cfg i w').
Proof.
  destruct w as [ws rs er ta ts ty hr hp hd st bpn wc].
  destruct w' as [ws' rs' er' ta' ts' ty' hr' hp' hd' st' bpn' wc'].
  unfold forget_pos, set_bp_pos. cbn. intros E. inversion E; subst.
  unfold address_phase. unfold_monad. cbn.
  repeat (case_split; cbn); split; reflexivity.
Qed.

Lemma edge_default_generator i (w w' : world S) :
  forget_pos w = forget_pos w' ->
  forget_pos (fst (edge (with_bp cfg (Some _default_generator)) i w))
  = forget_pos (fst (edge (with_bp cfg None) i w')) /\
  snd (edge (with_bp cfg (Some _default_generator)) i w)
  = snd (edge (with_bp cfg None) i w').
Proof.
  intros Hf. rewrite !edge_phases.
  destruct (data_phase_default_generator i w w' Hf) as [Hw Hr].
  rewrite <- (forget_pos_wires w w' Hf).
  change (new_txn (with_bp cfg (Some _default_generator)) (hready w) i)
    with (new_txn cfg (hready w) i).
  change (new_txn (with_bp cfg None) (hready w) i)
    with (new_txn cfg (hready w) i).
  destruct (data_phase (with_bp cfg (Some _default_generator)) i w) as [w1 r1].
  destruct (data_phase (with_bp cfg None) i w') as [w1' r1'].
  cbn [fst snd] in Hw, Hr. subst r1'.
  destruct r1 as [[]|e]; [|cbn; auto].
  destruct (new_txn cfg (hready w) i) as [[|]|e]; [|cbn; auto|cbn; auto].
  change (address_phase (with_bp cfg (Some _default_generator)) i w1)
    with (address_phase cfg i w1).
  change (address_phase (with_bp cfg None) i w1')
    with (address_phase cfg i w1').
  exact (address_phase_forget_pos i w1 w1' Hw).
Qed.

(** X13: a responder given [_default_generator] as its backpressure
    source behaves as one given none: over any sequence of edges the two
    end with the same result and in the same world, the position of the
    generator apart. *)
Theorem default_generator_is_no_generator (ins : list inputs) :
  forall w w' : world S,
  forget_pos w = forget_pos w' ->
  forget_pos (after (with_bp cfg (Some _default_generator)) ins w)
  = forget_pos (after (with_bp cfg None) ins w') /\
  snd (run (with_bp cfg (Some _default_generator)) ins w)
  = snd (run (with_bp cfg None) ins w').
Proof.
  unfold after. induction ins as [|i ins IH]; intros w w' Hf.
  - cbn. auto.
  - cbn [run]. unfold bind.
    destruct (edge_default_generator i w w' Hf) as [Hw Hr].
    destruct (edge (with_bp cfg (Some _default_generator)) i w) as [w1 r1].
    destruct (edge (with_bp cfg None) i w') as [w1' r1'].
    cbn [fst snd] in Hw, Hr. subst r1'.
    destruct r1 as [[]|e]; [apply IH; exact Hw | cbn; auto].
Qed.
End DefaultGenerator.

(** ** A write and a read of the same place, over the bus *)

Lemma request_of_wires cfg i a s t ty :
  haddr i = Resolved a -> hsize i = Resolved s -> hwrite i = Resolved t ->
  AHBWrite_of t = Ok ty ->
  AHBSize.member s = true -> 2 ^ s <= data_width cfg ->
  request cfg i = Some (a, s, ty).
Proof.
  intros Ha Hs Hw Ht Hm Hle. unfold request. rewrite Ha, Hs, Hw. cbn.
  unfold AHBSize.of_int. rewrite Hm, Ht, (check_size_member cfg s Hm Hle).
  reflexivity.
Qed.

(** X17: on the memory-backed responder, with ready high, nothing in
    error and the cycle granted, a WRITE address phase for an access in
    bounds followed at the next edge by the write data [v] together with
    a READ address phase for the same address and size ends that second
    edge with [v], masked to the byte count, on the read data; both
    edges return, the response is OKAY at both, and [_wr] has been called
    once, with the latched address and size and the data of the second
    edge. *)
Theorem write_then_read_over_the_bus
    (cfg : config) (w : world Memory.t) (i1 i2 : inputs) (a s v : Z) :
  error w = false -> wr_start w = false -> hready w = Resolved 1 ->
  granted cfg w = true ->
  acceptable cfg (Resolved 1) i1 = true ->
  acceptable cfg (Resolved 1) i2 = true ->
  haddr i1 = Resolved a -> hsize i1 = Resolved s -> hwrite i1 = Resolved 1 ->
  haddr i2 = Resolved a -> hsize i2 = Resolved s -> hwrite i2 = Resolved 0 ->
  hwdata i2 = Resolved v ->
  AHBSize.member s = true -> 2 ^ s <= data_width cfg ->
  in_bounds (store w) a s ->
  exists w1 w2,
    edge cfg i1 w = (w1, Ok tt) /\
    hresp w1 = Resolved (resp_val OKAY) /\ store w1 = store w /\
    edge cfg i2 w1 = (w2, Ok tt) /\
    hresp w2 = Resolved (resp_val OKAY) /\ error w2 = false /\
    hrdata w2 = Resolved (v mod 2 ^ (8 * 2 ^ s)) /\
    wr_calls w2 = (a, s, Resolved v) :: wr_calls w.
Proof.
  intros He Hws Hr Hg Hacc1 Hacc2 Ha1 Hs1 Hw1 Ha2 Hs2 Hw2 Hd2 Hm Hle Hb.
  pose proof (request_of_wires cfg i1 a s 1 WRITE Ha1 Hs1 Hw1 eq_refl Hm Hle) as Hq1.
  pose proof (request_of_wires cfg i2 a s 0 READ Ha2 Hs2 Hw2 eq_refl Hm Hle) as Hq2.
  apply new_txn_acceptable in Hacc1, Hacc2.
  assert (Hchk : forall m, Memory.size m = Memory.size (store w) ->
                   RAM.chk_wr m a s = true /\ RAM.chk_rd m a s = true).
  { intros m Hsz. unfold RAM.chk_wr, RAM.chk_rd. rewrite Hsz.
    destruct Hb as [_ Hb].
    destruct (a + 2 ^ s >? Memory.size (store w)) eqn:E; [|auto].
    rewrite Z.gtb_ltb in E. apply Z.ltb_lt in E. lia. }
  destruct (wr_in_bounds (store w) a s v Hm Hb)
    as (m' & bytes & Hwr & Hsz & Hfrom & _ & Hread).
  (* the first edge: the write is latched *)
  assert (Ht : truthy (hready w) = true) by (rewrite Hr; reflexivity).
  pose proof (data_phase_retires_read cfg i1 w He Ht Hws) as Hd1.
  rewrite Hg in Hd1.
  pose proof (edge_phases cfg i1 w) as E1.
  rewrite Hd1, Hr, Hacc1 in E1.
  rewrite (address_phase_write_accepted cfg i1 _ a s Hq1) in E1
    by (cbn; apply (Hchk (store w) eq_refl)).
  cbn in E1.
  (* the second edge: the write is carried out, the read latched *)
  match type of E1 with _ = (?x, _) => set (w1 := x) in * end.
  pose proof (data_phase_completes_write cfg i2 w1 eq_refl eq_refl eq_refl eq_refl)
    as Hdp.
  cbn [store txn_addr txn_size w1] in Hdp. rewrite Hd2 in Hdp.
  change (_wr (store w) a s (Resolved v)) with (RAM.wr (store w) a s (Resolved v)) in Hdp.
  change (_wr (store w) a s (Resolved v)) with (RAM.wr (store w) a s (Resolved v)) in Hwr.
  rewrite Hwr in Hdp.
  pose proof (edge_phases cfg i2 w1) as E2.
  rewrite Hdp in E2. cbn [hready w1] in E2. rewrite Hacc2 in E2.
  rewrite (address_phase_read_accepted cfg i2 _ a s Hq2) in E2
    by (cbn; apply (Hchk m' Hsz)).
  cbn [store] in E2.
  change (_rd m' a s) with (RAM.rd m' a s) in E2.
  unfold RAM.rd in E2. rewrite Hread, Hfrom in E2.
  exists w1. eexists. split; [exact E1|].
  split; [reflexivity|]. split; [reflexivity|].
  split; [exact E2|]. cbn. auto.
Qed.

(** ** The further properties on the test benches *)

Lemma pending_exclusive_witness :
  txn_type Scenes.write_pending = WRITE /\
  rd_start Scenes.write_pending = false /\ error Scenes.write_pending = false.
Proof.
  refine (proj1 (pending_exclusive Bench.cfg0 Scenes.write_pending _) _).
  - apply after_reachable; [apply reach_init | reflexivity].
  - reflexivity.
Defined.

Lemma error_only_by_rejection_witness :
  write_rejected Bench.cfg0 (Bench.xfer 0 100 2 0) Bench.ready_up = true \/
  read_rejected Bench.cfg0 (Bench.xfer 0 100 2 0) Bench.ready_up = true.
Proof.
  apply (error_only_by_rejection Bench.cfg0 Bench.ready_up
           (fst (edge Bench.cfg0 (Bench.xfer 0 100 2 0) Bench.ready_up)));
    vm_compute; reflexivity.
Defined.

Lemma response_error_iff_flag_witness :
  hresp (fst (edge Bench.cfg0 Bench.idle Bench.rejected_read))
  = Resolved (resp_val ERROR).
Proof.
  refine (proj2 (proj2 (response_error_iff_flag Bench.cfg0 Bench.rejected_read
                          (fst (edge Bench.cfg0 Bench.idle Bench.rejected_read))
                          Bench.idle _ _)) _).
  - apply after_reachable; [apply reach_init | reflexivity].
  - reflexivity.
  - reflexivity.
Defined.

Lemma wait_state_holds_witness :
  exists w',
    edge Scenes.cfg_alt (Bench.xfer 1 8 2 0) Scenes.read_waiting = (w', Ok tt) /\
    rd_start w' = true /\ txn_addr w' = 4 /\
    hrdata w' = hrdata Scenes.read_waiting.
Proof.
  destruct (wait_state_holds Scenes.cfg_alt Scenes.read_waiting (Bench.xfer 1 8 2 0))
    as (w' & E & _ & Hr & _ & Ha & _ & _ & Hd & _).
  - reflexivity.
  - reflexivity.
  - exists w'. repeat split; assumption.
Defined.

Lemma write_completes_in_data_phase_witness :
  wr_calls (fst (edge Bench.cfg0 (Bench.xfer 0 4 2 3735928559) Scenes.write_pending))
  = [(4, 2, Resolved 3735928559)].
Proof.
  apply (write_completes_in_data_phase Bench.cfg0 Scenes.write_pending
           (Bench.xfer 0 4 2 3735928559)); reflexivity.
Defined.


Lemma write_deferred_when_latched_witness :
  exists w',
    edge Bench.cfg0 (Bench.xfer 1 4 2 0) Bench.ready_up = (w', Ok tt) /\
    wr_start w' = true /\ wr_calls w' = [].
Proof.
  destruct (write_deferred_when_latched Bench.cfg0 Bench.ready_up (Bench.xfer 1 4 2 0))
    as (w' & a & sz & _ & E & Hs & _ & _ & _ & _ & Hc & _).
  - reflexivity.
  - exists w'. repeat split; assumption.
Defined.

Lemma unresolvable_wire_skips_check_witness :
  edge Bench.cfg0 Scenes.floating Bench.ready_up
  = data_phase Bench.cfg0 Scenes.floating Bench.ready_up.
Proof.
  apply unresolvable_wire_skips_check; reflexivity.
Defined.

Lemma generator_advances_once_per_edge_witness :
  bp_pos (after Bench.cfg_bp [Bench.idle; Bench.xfer 0 100 2 0; Bench.idle]
            Bench.ram16_bp) = 3%nat.
Proof.
  exact (generator_advances_once_per_edge Bench.cfg_bp
           [Bench.idle; Bench.xfer 0 100 2 0; Bench.idle] Bench.ram16_bp eq_refl).
Defined.

Lemma ready_follows_grant_witness :
  hready (fst (edge Scenes.cfg_alt Bench.idle
                 (after Scenes.cfg_alt [Bench.idle]
                    (init Scenes.cfg_alt (Memory.create 16)))))
  = Resolved 0.
Proof.
  rewrite (ready_follows_grant Scenes.cfg_alt
             (after Scenes.cfg_alt [Bench.idle] (init Scenes.cfg_alt (Memory.create 16)))
             (fst (edge Scenes.cfg_alt Bench.idle
                     (after Scenes.cfg_alt [Bench.idle]
                        (init Scenes.cfg_alt (Memory.create 16)))))
             Bench.idle);
    vm_compute; reflexivity.
Defined.

Lemma bare_responder_never_errors_witness : error Scenes.lite_up = false.
Proof.
  apply (bare_responder_never_errors Bench.cfg0 Scenes.lite_up).
  apply after_reachable; [apply reach_init | reflexivity].
Defined.

Lemma bare_responder_returns_witness :
  snd (edge Bench.cfg0 (Bench.xfer 1 4 2 0) Scenes.lite_up) = Ok tt.
Proof.
  apply bare_responder_returns.
  - apply after_reachable; [apply reach_init | reflexivity].
  - reflexivity.
  - reflexivity.
Defined.

Lemma default_generator_is_no_generator_witness :
  snd (run (with_bp Bench.cfg0 (Some _default_generator))
         [Bench.idle; Bench.xfer 0 100 2 0; Bench.idle] Bench.ram16)
  = snd (run (with_bp Bench.cfg0 None)
           [Bench.idle; Bench.xfer 0 100 2 0; Bench.idle] Bench.ram16).
Proof.
  apply (default_generator_is_no_generator Bench.cfg0). reflexivity.
Defined.

Lemma wr_ignores_high_bytes_witness :
  _wr (Memory.create 16) 0 AHBSize.BYTE (Resolved 511)
  = _wr (Memory.create 16) 0 AHBSize.BYTE
      (Resolved (511 mod 2 ^ (8 * 2 ^ AHBSize.BYTE))).
Proof.
  apply wr_ignores_high_bytes. reflexivity.
Defined.

Lemma wr_raises_only_witness :
  fst (_wr (Memory.create 16) 100 AHBSize.WORD (Resolved 1)) = Memory.create 16.
Proof.
  apply (wr_raises_only (Memory.create 16) 100 AHBSize.WORD (Resolved 1)
           (ValueError OutOfRange)).
  reflexivity.
Defined.

Lemma chk_rd_guards_rd_witness :
  exists d, _rd (Memory.create 16) 12 AHBSize.WORD = Ok d /\
            0 <= d < 2 ^ (8 * 2 ^ AHBSize.WORD).
Proof.
  apply chk_rd_guards_rd; [reflexivity | lia | vm_compute; discriminate].
Defined.

Lemma write_then_read_over_the_bus_witness :
  exists w1 w2,
    edge Bench.cfg0 (Bench.xfer 1 4 2 0) Bench.ready_up = (w1, Ok tt) /\
    edge Bench.cfg0 (Bench.xfer 0 4 2 3735928559) w1 = (w2, Ok tt) /\
    hrdata w2 = Resolved (3735928559 mod 2 ^ (8 * 2 ^ 2)).
Proof.
  destruct (write_then_read_over_the_bus Bench.cfg0 Bench.ready_up
              (Bench.xfer 1 4 2 0) (Bench.xfer 0 4 2 3735928559) 4 2 3735928559)
    as (w1 & w2 & E1 & _ & _ & E2 & _ & _ & Hd & _);
    try reflexivity.
  - split; vm_compute; discriminate.
  - exists w1, w2. auto.
Defined.

(** ** Retired reads and rejected reads *)

Section ReadPaths.
Context {S : Type} `{Responder S}.
Variable cfg : config.

(** X18: read data is not held.  At an edge that starts with a read
    pending, no write pending, the error flag clear and ready read back
    high, and that latches no new transfer, the pending-read flag is
    cleared and the read data goes back to the default value. *)
Theorem read_data_released (w : world S) (i : inputs) :
  error w = false -> truthy (hready w) = true ->
  rd_start w = true -> wr_start w = false ->
  latches cfg i w = false ->
  rd_start (fst (edge cfg i w)) = false /\
  hrdata (fst (edge cfg i w)) = _get_def cfg (hrdata_len cfg) /\
  hresp (fst (edge cfg i w)) = Resolved (resp_val OKAY) /\
  store (fst (edge cfg i w)) = store w.
Proof.
  intros He Ht Hrs Hws Hl.
  rewrite (not_latched_edge cfg i w Hl).
  rewrite (data_phase_retires_read cfg i w He Ht Hws), Hrs. cbn. auto.
Qed.

(** X19: a rejected read.  At an edge that latches a READ which
    [_chk_rd] rejects, the edge returns with ready 0 and the error flag
    set; the address, size and direction of the rejected request are
    latched all the same, while the pending flags, the read data, the
    response, the store and the calls of [_wr] stay as the data phase
    left them. *)
Theorem rejected_read_keeps_data (w : world S) (i : inputs) :
  read_rejected cfg i w = true ->
  exists w',
    edge cfg i w = (w', Ok tt) /\
    hready w' = Resolved 0 /\ error w' = true /\
    request cfg i = Some (txn_addr w', txn_size w', txn_type w') /\
    txn_type w' = READ /\
    rd_start w' = rd_start (fst (data_phase cfg i w)) /\
    wr_start w' = wr_start (fst (data_phase cfg i w)) /\
    hrdata w' = hrdata (fst (data_phase cfg i w)) /\
    hresp w' = hresp (fst (data_phase cfg i w)) /\
    store w' = store (fst (data_phase cfg i w)) /\
    wr_calls w' = wr_calls (fst (data_phase cfg i w)).
Proof.
  intros Hr. pose proof Hr as Hr0.
  unfold read_rejected in Hr. apply andb_true_iff in Hr as [Hl Hq].
  destruct (latches_edge cfg i w Hl) as (w1 & Hd & _ & He).
  rewrite Hd in *. cbn [fst] in *.
  destruct (request cfg i) as [[[a sz] [|]]|] eqn:Hreq; try discriminate.
  apply negb_true_iff in Hq.
  rewrite He, (address_phase_read_rejected cfg i w1 a sz Hreq Hq).
  eexists. split; [reflexivity|]. cbn. auto 12.
Qed.
End ReadPaths.

Lemma read_data_released_witness :
  hrdata (fst (edge Bench.cfg0 Bench.idle
                 (after Bench.cfg0 [Bench.idle; Bench.xfer 0 4 2 0] Bench.ram16)))
  = Resolved 0.
Proof.
  apply (read_data_released Bench.cfg0
           (after Bench.cfg0 [Bench.idle; Bench.xfer 0 4 2 0] Bench.ram16)
           Bench.idle); vm_compute; reflexivity.
Defined.

Lemma rejected_read_keeps_data_witness :
  exists w',
    edge Bench.cfg0 (Bench.xfer 0 100 2 0) Bench.ready_up = (w', Ok tt) /\
    hready w' = Resolved 0 /\ error w' = true /\ txn_addr w' = 100.
Proof.
  destruct (rejected_read_keeps_data Bench.cfg0 Bench.ready_up (Bench.xfer 0 100 2 0))
    as (w' & E & Hr & He & Hq & _).
  - vm_compute. reflexivity.
  - exists w'. repeat split; try assumption.
    vm_compute in Hq. now injection Hq as -> _ _.
Defined.
